(** * slice-text: a shallow embedding of the span pipeline

    The library locates search words in a text with the host's regular
    expressions ([slicing]), merges the overlapping slices ([mergeOverlap]),
    fills the gaps between them ([fillSliceGaps]) and composes the three
    ([sliceText]).  The two string helpers [escapeRegex] and [pattern] build
    the regular expression of a word.

    Strings are [String.string]; one [ascii] stands for one code unit of the
    JavaScript string.  Slice positions are [Z], because [mergeOverlap] and
    [fillSliceGaps] are exported and accept any integers; positions that come
    out of the regular expression engine are naturals. *)

From Stdlib Require Import List ZArith Lia Bool Ascii String Arith.
From Stdlib Require Import Permutation Sorted.
Import ListNotations.

Open Scope string_scope.
Open Scope list_scope.
Open Scope Z_scope.

(* ================================================================== *)
(** * Host strings *)

Module JS.

(** The code units below 256 that [String.prototype.trim] removes: tab,
    line feed, vertical tab, form feed, carriage return, space and the
    no-break space. *)
Definition is_white_space (c : ascii) : bool :=
  let n := nat_of_ascii c in
  (Nat.eqb n 9 || Nat.eqb n 10 || Nat.eqb n 11 || Nat.eqb n 12
   || Nat.eqb n 13 || Nat.eqb n 32 || Nat.eqb n 160)%bool.

Fixpoint trimStart (s : string) : string :=
  match s with
  | EmptyString => EmptyString
  | String c r => if is_white_space c then trimStart r else s
  end.

Fixpoint trimEnd (s : string) : string :=
  match s with
  | EmptyString => EmptyString
  | String c r =>
      let r' := trimEnd r in
      if (is_white_space c && String.eqb r' EmptyString)%bool
      then EmptyString else String c r'
  end.

Definition trim (s : string) : string := trimEnd (trimStart s).

(** [text.length] *)
Definition length (s : string) : Z := Z.of_nat (String.length s).

(** [text.slice(a, b)]: a negative position counts from the end, every
    position is clamped to the text, and an empty range gives [""]. *)
Definition clamp (len i : Z) : Z :=
  if i <? 0 then Z.max (len + i) 0 else Z.min i len.

Definition slice (s : string) (a b : Z) : string :=
  let from := clamp (length s) a in
  let to := clamp (length s) b in
  String.substring (Z.to_nat from) (Z.to_nat (to - from)) s.

(** [!!word] on a string: only the empty string is falsy. *)
Definition truthy (s : string) : bool := negb (String.eqb s EmptyString).

(** [Array.from(new Set(words))]: each value once, at the place of its
    first occurrence. *)
Fixpoint Array_from_Set (words : list string) : list string :=
  match words with
  | [] => []
  | w :: r => w :: filter (fun x => negb (String.eqb x w)) (Array_from_Set r)
  end.

End JS.

(* ================================================================== *)
(** * src/fns: [escapeRegex] and [pattern] *)

(** The character class of [escapeRegex]: ( ) [ ] { } / * + ? . \ ^ $ | - *)
Definition regex_special : list ascii :=
  list_ascii_of_string "()[]{}/*+?.\^$|-".

Definition is_special (c : ascii) : bool :=
  existsb (Ascii.eqb c) regex_special.

(** [string.replace(/[...]/g, `\\$&`)]: every special character gets a
    backslash in front, the others are kept. *)
Fixpoint escapeRegex (s : string) : string :=
  match s with
  | EmptyString => EmptyString
  | String c r =>
      if is_special c then String "\" (String c (escapeRegex r))
      else String c (escapeRegex r)
  end.

(** [boolean | 'start' | 'end'] *)
Inductive Boundary : Type :=
| BBool (b : bool)
| BStart
| BEnd.

Definition is_false (b : Boundary) : bool :=
  match b with BBool false => true | _ => false end.

Definition pattern (word : string) (boundary : Boundary) : string :=
  if (String.eqb (JS.trim word) EmptyString || is_false boundary)%bool then word
  else
    match boundary with
    | BStart => ("\b" ++ word ++ "\w+")%string
    | BEnd => ("\w+" ++ word ++ "\b")%string
    | BBool true => ("\b" ++ word ++ "\b")%string
    | BBool false => word
    end.

(* ================================================================== *)
(** * Regular expression objects *)

(** What the code sees of a [RegExp]: the pattern and flags it was built
    from and the mutable [lastIndex]. *)
Record RegExp : Type := mkRegExp {
  source : string;
  flags : string;
  lastIndex : nat
}.

(** [new RegExp(pattern, flags)] *)
Definition new_RegExp (pat fl : string) : RegExp := mkRegExp pat fl 0.

Definition set_lastIndex (r : RegExp) (i : nat) : RegExp :=
  mkRegExp (source r) (flags r) i.

Definition has_flag (c : ascii) (r : RegExp) : bool :=
  existsb (Ascii.eqb c) (list_ascii_of_string (flags r)).

(** A regular expression reads and writes [lastIndex] when it is global
    or sticky. *)
Definition tracks (r : RegExp) : bool :=
  (has_flag "g" r || has_flag "y" r)%bool.

(** The pattern matcher of the host: [search source flags text from] is the
    first occurrence the matcher reports when started at position [from],
    as the pair of its position and the length of the matched text. *)
Definition Engine : Type :=
  string -> string -> string -> nat -> option (nat * nat).

(** What every host guarantees: an occurrence reported for a search that
    started at [from] does not begin before [from]. *)
Definition cursor_respecting (search : Engine) : Prop :=
  forall src fl text from i len,
    search src fl text from = Some (i, len) -> (from <= i)%nat.

(* ================================================================== *)
(** * Slices and options *)

Record Slice : Type := mkSlice {
  start : Z;
  end_ : Z;
  matched : option bool
}.

(** [{ start, end }] *)
Definition slice_of (s e : Z) : Slice := mkSlice s e None.

Record Options : Type := mkOptions {
  escape : option bool;
  boundary : option Boundary;
  caseSensitive : option bool
}.

(** [Options | Match] *)
Inductive OptionsOrMatch : Type :=
| Config (o : Options)
| MatchFn (f : string -> RegExp).

(** The default value of the third parameter of [slicing]. *)
Definition default_options : Options :=
  mkOptions (Some true) (Some (BBool true)) (Some false).

(** Truthiness of an optional boolean field and of an optional boundary
    (the strings 'start' and 'end' are truthy). *)
Definition truthy_bool (b : option bool) : bool :=
  match b with Some true => true | _ => false end.

Definition truthy_boundary (b : option Boundary) : option Boundary :=
  match b with
  | Some (BBool false) | None => None
  | Some b => Some b
  end.

(** The [match] function that [slicing] builds from a configuration
    object: lines 138-142. *)
Definition match_of_options (options : Options) (word : string) : RegExp :=
  let word := if truthy_bool (escape options) then escapeRegex word else word in
  let word :=
    match truthy_boundary (boundary options) with
    | Some b => pattern word b
    | None => word
    end in
  new_RegExp word (if truthy_bool (caseSensitive options) then "g" else "gi").

(** The default of the parameter applies when the argument is omitted
    or [undefined]. *)
Definition or_default (options : option OptionsOrMatch) : OptionsOrMatch :=
  match options with
  | Some o => o
  | None => Config default_options
  end.

(** [typeof options === 'function'] *)
Definition match_of (options : OptionsOrMatch) : string -> RegExp :=
  match options with
  | MatchFn f => f
  | Config o => match_of_options o
  end.

(* ================================================================== *)
(** * The pipeline, over an arbitrary engine *)

Section Pipeline.

Variable search : Engine.

(** [regex.exec(text)]: the updated object and [matched.index], or
    [null].  A tracking expression starts at its [lastIndex], gives up
    when that is past the end of the text, stores the end of the
    occurrence on success and 0 on failure; any other expression starts
    at 0 and leaves [lastIndex] alone. *)
Definition exec (r : RegExp) (text : string) : RegExp * option nat :=
  let from := if tracks r then lastIndex r else 0%nat in
  let found :=
    if (String.length text <? from)%nat then None
    else search (source r) (flags r) text from in
  match found with
  | None => (if tracks r then set_lastIndex r 0 else r, None)
  | Some (index, len) =>
      (if tracks r then set_lastIndex r (index + len) else r, Some index)
  end.

(** One turn of the [while] loop of lines 151-166: [None] when [exec]
    returned [null], otherwise the expression and the slices after the
    body. *)
Definition loop_body (r : RegExp) (text : string) (slices : list Slice)
  : option (RegExp * list Slice) :=
  match exec r text with
  | (_, None) => None
  | (r1, Some index) =>
      let start := Z.of_nat index in
      let end_ := Z.of_nat (lastIndex r1) in
      let slices1 :=
        if start <? end_ then slices ++ [slice_of start end_] else slices in
      let r2 :=
        if start =? end_ then set_lastIndex r1 (lastIndex r1 + 1) else r1 in
      Some (r2, slices1)
  end.

(** The loop itself.  [fuel] bounds the number of turns; [None] means
    the bound was reached before [exec] returned [null]. *)
Fixpoint while_exec (fuel : nat) (r : RegExp) (text : string)
  (slices : list Slice) : option (list Slice) :=
  match fuel with
  | O => None
  | S fuel' =>
      match loop_body r text slices with
      | None => Some slices
      | Some (r', slices') => while_exec fuel' r' text slices'
      end
  end.

(** The callback of [reduce], lifted to a loop that may run out of
    fuel. *)
Definition reducer (fuel : nat) (match_ : string -> RegExp) (text : string)
  (slices : option (list Slice)) (word : string) : option (list Slice) :=
  match slices with
  | None => None
  | Some slices => while_exec fuel (match_ word) text slices
  end.

(** Lines 144-146: the words without repetitions, then without the empty
    word, then mapped to themselves. *)
Definition search_terms (searchWords : list string) : list string :=
  map (fun word => word) (filter JS.truthy (JS.Array_from_Set searchWords)).

(** [slicing(text, searchWords, options)]; [options = None] is the
    omitted (or [undefined]) argument. *)
Definition slicing (fuel : nat) (text : string) (searchWords : list string)
  (options : option OptionsOrMatch) : option (list Slice) :=
  fold_left (reducer fuel (match_of (or_default options)) text)
    (search_terms searchWords) (Some []).

End Pipeline.

(* ================================================================== *)
(** * [mergeOverlap] *)

(** [slices.toSorted((a, b) => a.start - b.start)]: a stable sort on
    [start]. *)
Fixpoint insert_by_start (x : Slice) (l : list Slice) : list Slice :=
  match l with
  | [] => [x]
  | y :: r =>
      if start x <=? start y then x :: y :: r
      else y :: insert_by_start x r
  end.

Fixpoint toSorted (l : list Slice) : list Slice :=
  match l with
  | [] => []
  | x :: r => insert_by_start x (toSorted r)
  end.

(** The body of the [for] loop, on the pair of [merged] and [current]. *)
Definition merge_step (st : list Slice * Slice) (next : Slice)
  : list Slice * Slice :=
  let (merged, current) := st in
  if start next <=? end_ current
  then (merged, slice_of (start current) (Z.max (end_ current) (end_ next)))
  else (merged ++ [current], next).

Definition mergeOverlap (slices : list Slice) : list Slice :=
  match slices with
  | [] => slices
  | _ =>
      match toSorted slices with
      | [] => []
      | current :: rest =>
          let (merged, current) := fold_left merge_step rest ([], current) in
          merged ++ [current]
      end
  end.

(* ================================================================== *)
(** * [fillSliceGaps] and [sliceText] *)

(** The local [push], on the array it closes over. *)
Definition push (matchedSlices : list Slice) (s e : Z) (m : bool)
  : list Slice :=
  if 0 <? e - s then matchedSlices ++ [mkSlice s e (Some m)]
  else matchedSlices.

(** The callback of [forEach], on the pair of [matchedSlices] and
    [startIndex]. *)
Definition fill_step (st : list Slice * Z) (slice : Slice) : list Slice * Z :=
  let (matchedSlices, startIndex) := st in
  let matchedSlices := push matchedSlices startIndex (start slice) false in
  let matchedSlices := push matchedSlices (start slice) (end_ slice) true in
  (matchedSlices, end_ slice).

Definition fillSliceGaps (slices : list Slice) (textLength : Z) : list Slice :=
  if textLength =? 0 then []
  else
    match slices with
    | [] => push [] 0 textLength false
    | _ =>
        let (matchedSlices, startIndex) := fold_left fill_step slices ([], 0) in
        push matchedSlices startIndex textLength false
    end.

Definition sliceText (search : Engine) (fuel : nat) (text : string)
  (searchWords : list string) (options : option OptionsOrMatch)
  : option (list Slice) :=
  match slicing search fuel text searchWords options with
  | Some slices => Some (fillSliceGaps (mergeOverlap slices) (JS.length text))
  | None => None
  end.

(* ================================================================== *)
(** * A reference engine for the patterns the library builds

    The general theorems below hold for every engine.  To run the pipeline
    on concrete texts, [RefEngine.search] implements the fragment of the
    host's pattern language that [escapeRegex] and [pattern] produce from a
    word: an escaped character [\c] and a plain character stand for
    themselves, [\b] is a word boundary, [\w] a word character and [\w+] a
    greedy run of them; the flag [i] folds the case of the letters a-z.  It
    reports the leftmost occurrence at or after the starting position.
    Unescaped operators of the pattern language are outside the fragment. *)

Module RefEngine.

Inductive atom : Type :=
| AChar (c : ascii)
| AWord
| AWordPlus
| ABoundary.

Fixpoint parse (s : list ascii) : list atom :=
  match s with
  | [] => []
  | c :: r =>
      if Ascii.eqb c "\" then
        match r with
        | [] => [AChar c]
        | d :: r' =>
            if Ascii.eqb d "b" then ABoundary :: parse r'
            else if Ascii.eqb d "w" then
              match r' with
              | p :: r'' =>
                  if Ascii.eqb p "+" then AWordPlus :: parse r''
                  else AWord :: parse r'
              | [] => [AWord]
              end
            else AChar d :: parse r'
        end
      else AChar c :: parse r
  end.

Definition between (lo hi n : nat) : bool :=
  (Nat.leb lo n && Nat.leb n hi)%bool.

Definition is_word (c : ascii) : bool :=
  let n := nat_of_ascii c in
  (between 48 57 n || between 65 90 n || between 97 122 n || Nat.eqb n 95)%bool.

Definition lower (c : ascii) : ascii :=
  let n := nat_of_ascii c in
  if between 65 90 n then ascii_of_nat (n + 32) else c.

Definition same_char (ignoreCase : bool) (a b : ascii) : bool :=
  if ignoreCase then Ascii.eqb (lower a) (lower b) else Ascii.eqb a b.

Definition word_before (prev : option ascii) : bool :=
  match prev with Some c => is_word c | None => false end.

Definition word_after (s : list ascii) : bool :=
  match s with c :: _ => is_word c | [] => false end.

(** The length of the match of [atoms] that starts at the head of [s];
    [prev] is the character in front of it. *)
Fixpoint match_here (ic : bool) (atoms : list atom) (prev : option ascii)
  (s : list ascii) {struct atoms} : option nat :=
  match atoms with
  | [] => Some 0%nat
  | AChar c :: k =>
      match s with
      | x :: s' =>
          if same_char ic c x then option_map S (match_here ic k (Some x) s')
          else None
      | [] => None
      end
  | AWord :: k =>
      match s with
      | x :: s' =>
          if is_word x then option_map S (match_here ic k (Some x) s')
          else None
      | [] => None
      end
  | ABoundary :: k =>
      if xorb (word_before prev) (word_after s) then match_here ic k prev s
      else None
  | AWordPlus :: k =>
      let more :=
        fix more (prev : option ascii) (s : list ascii) {struct s}
          : option nat :=
          match s with
          | x :: s' =>
              if is_word x then
                match more (Some x) s' with
                | Some n => Some (S n)
                | None => match_here ic k prev s
                end
              else match_here ic k prev s
          | [] => match_here ic k prev s
          end in
      match s with
      | x :: s' => if is_word x then option_map S (more (Some x) s') else None
      | [] => None
      end
  end.

Fixpoint find_from (ic : bool) (atoms : list atom) (prev : option ascii)
  (s : list ascii) (pos : nat) : option (nat * nat) :=
  match match_here ic atoms prev s with
  | Some len => Some (pos, len)
  | None =>
      match s with
      | [] => None
      | c :: s' => find_from ic atoms (Some c) s' (S pos)
      end
  end.

Fixpoint drop_to (from : nat) (prev : option ascii) (s : list ascii)
  : option (option ascii * list ascii) :=
  match from with
  | O => Some (prev, s)
  | S n =>
      match s with
      | [] => None
      | c :: s' => drop_to n (Some c) s'
      end
  end.

Definition search : Engine := fun src fl text from =>
  match drop_to from None (list_ascii_of_string text) with
  | None => None
  | Some (prev, s) =>
      find_from (existsb (Ascii.eqb "i") (list_ascii_of_string fl))
        (parse (list_ascii_of_string src)) prev s from
  end.

End RefEngine.

(* ================================================================== *)
(** * Properties named by the specification *)

(** A span whose positions are in order, and one that is not empty. *)
Definition well_formed (s : Slice) : Prop := start s <= end_ s.
Definition non_empty (s : Slice) : Prop := start s < end_ s.

(** A span as the scanner makes it: in the text and not empty. *)
Definition scanned (s : Slice) : Prop := 0 <= start s /\ start s < end_ s.

(** The positions of a span, without its flag. *)
Definition erase (s : Slice) : Slice := slice_of (start s) (end_ s).

Definition unflagged (s : Slice) : Prop := matched s = None.

(** A word made of white space only. *)
Fixpoint only_white_space (s : string) : bool :=
  match s with
  | EmptyString => true
  | String c r => (JS.is_white_space c && only_white_space r)%bool
  end.

(** The merger in the words of the specification: an accumulator starts
    as the first sorted span; a span that starts at or before the end of
    the accumulator extends it to the larger of the two ends, any other
    span flushes the accumulator and becomes the new one; the last
    accumulator is flushed at the end. *)
Fixpoint coalesce_from (current : Slice) (rest : list Slice) : list Slice :=
  match rest with
  | [] => [current]
  | next :: rest' =>
      if start next <=? end_ current
      then coalesce_from
             (slice_of (start current) (Z.max (end_ current) (end_ next))) rest'
      else current :: coalesce_from next rest'
  end.

Definition coalesce (sorted : list Slice) : list Slice :=
  match sorted with
  | [] => []
  | first :: rest => coalesce_from first rest
  end.

Definition by_start (a b : Slice) : Prop := start a <= start b.

(** Spans in ascending order, each one in order itself, none reaching
    into the next, all between [lo] and [hi]. *)
Fixpoint within (lo : Z) (spans : list Slice) (hi : Z) : Prop :=
  match spans with
  | [] => lo <= hi
  | s :: r => lo <= start s /\ start s <= end_ s /\ within (end_ s) r hi
  end.

(** The summed length of the spans. *)
Definition total_length (l : list Slice) : Z :=
  fold_right (fun s acc => (end_ s - start s) + acc) 0 l.

(** [output[i].end = output[i+1].start] for every consecutive pair. *)
Definition contiguous (l : list Slice) : Prop :=
  forall i a b,
    nth_error l i = Some a -> nth_error l (S i) = Some b -> end_ a = start b.

(** The text put together again from the slices. *)
Definition reconstruct (text : string) (l : list Slice) : string :=
  String.concat "" (map (fun s => JS.slice text (start s) (end_ s)) l).

(** A gap-free run of non-empty spans that leads from [a] to [b]. *)
Fixpoint chain (a : Z) (l : list Slice) (b : Z) : Prop :=
  match l with
  | [] => a = b
  | s :: r => start s = a /\ a < end_ s /\ chain (end_ s) r b
  end.

(** Spans in order that lie after [e] and leave a gap between each
    other: what the merger produces. *)
Fixpoint separated_from (e : Z) (l : list Slice) : Prop :=
  match l with
  | [] => True
  | s :: r => e < start s /\ start s <= end_ s /\ separated_from (end_ s) r
  end.

(** A position in front of every span of [l]. *)
Definition below (l : list Slice) : Z :=
  fold_right (fun s m => Z.min (start s - 1) m) 0 l.

(** The number of characters of a word that [escapeRegex] escapes. *)
Fixpoint count_special (s : string) : nat :=
  match s with
  | EmptyString => 0%nat
  | String c r => ((if is_special c then 1 else 0) + count_special r)%nat
  end.

(** What every host guarantees as well: an occurrence lies in the text. *)
Definition occurrence_in_text (search : Engine) : Prop :=
  forall src fl text from i len,
    search src fl text from = Some (i, len) ->
    (i + len <= String.length text)%nat.

(** The positions that the spans of [l] cover, as half-open ranges. *)
Definition covers (l : list Slice) (x : Z) : Prop :=
  exists s, In s l /\ start s <= x < end_ s.

(** [matched === true], and a span with its flag set. *)
Definition is_matched (s : Slice) : bool :=
  match matched s with Some true => true | _ => false end.

Definition flagged (m : bool) (s : Slice) : Slice :=
  mkSlice (start s) (end_ s) (Some m).

Definition is_non_empty (s : Slice) : bool := start s <? end_ s.

(** No two neighbours have the same [matched] value. *)
Definition alternating (l : list Slice) : Prop :=
  forall i a b,
    nth_error l i = Some a -> nth_error l (S i) = Some b ->
    matched a <> matched b.

(** Neighbours differ in their flag, the first one from [m]. *)
Fixpoint alt_after (m : option bool) (l : list Slice) : Prop :=
  match l with
  | [] => True
  | s :: r => m <> matched s /\ alt_after (matched s) r
  end.

(** The flag of the last span of [l], or [m] for no span. *)
Definition last_flag (m : option bool) (l : list Slice) : option bool :=
  fold_left (fun _ s => matched s) l m.

(** Each span ends before the next begins. *)
Definition gapped (l : list Slice) : Prop :=
  forall i a b,
    nth_error l i = Some a -> nth_error l (S i) = Some b -> end_ a < start b.

(* ================================================================== *)
(** * The test suite, run on the reference engine *)

Example test_slicing_multiple_words :
  slicing RefEngine.search 30 "Hello world, hello universe" ["Hello"; "hello"] None
  = Some [slice_of 0 5; slice_of 13 18; slice_of 0 5; slice_of 13 18].
Proof. vm_compute. reflexivity. Qed.

Example test_sliceText_matched_regions :
  sliceText RefEngine.search 30 "Hello world, hello universe" ["Hello"; "hello"] None
  = Some [mkSlice 0 5 (Some true); mkSlice 5 13 (Some false);
          mkSlice 13 18 (Some true); mkSlice 18 27 (Some false)].
Proof. vm_compute. reflexivity. Qed.

Example test_sliceText_word_boundary :
  sliceText RefEngine.search 10 "aaaaa" ["aa"] None
  = Some [mkSlice 0 5 (Some false)].
Proof. vm_compute. reflexivity. Qed.

Example test_slicing_boundary_start :
  slicing RefEngine.search 50 "Hello worldly, hello there. Worldwide is nice."
    ["world"] (Some (Config (mkOptions None (Some BStart) None)))
  = Some [slice_of 6 13; slice_of 28 37].
Proof. vm_compute. reflexivity. Qed.

Example test_slicing_boundary_end :
  slicing RefEngine.search 30 "prefix_word suffix_word"
    ["word"] (Some (Config (mkOptions None (Some BEnd) None)))
  = Some [slice_of 0 11; slice_of 12 23].
Proof. vm_compute. reflexivity. Qed.

Example test_slicing_escape :
  slicing RefEngine.search 30 "Testing * and + and ? and ."
    ["*"; "+"; "?"; "."] (Some (Config (mkOptions (Some true) None None)))
  = Some [slice_of 8 9; slice_of 14 15; slice_of 20 21; slice_of 26 27].
Proof. vm_compute. reflexivity. Qed.

Example test_slicing_escape_only :
  slicing RefEngine.search 30 "Testing [1.2.3] version"
    ["[1.2.3]"] (Some (Config (mkOptions (Some true) None None)))
  = Some [slice_of 8 15].
Proof. vm_compute. reflexivity. Qed.

Example test_slicing_case_sensitive :
  slicing RefEngine.search 50 "Hello world, hello there. World is nice."
    ["hello"; "world"] (Some (Config (mkOptions None None (Some true))))
  = Some [slice_of 13 18; slice_of 6 11].
Proof. vm_compute. reflexivity. Qed.

Example test_fillSliceGaps_doc :
  fillSliceGaps [slice_of 5 10; slice_of 15 20] 25
  = [mkSlice 0 5 (Some false); mkSlice 5 10 (Some true);
     mkSlice 10 15 (Some false); mkSlice 15 20 (Some true);
     mkSlice 20 25 (Some false)].
Proof. reflexivity. Qed.

Example test_fillSliceGaps_zero_length :
  fillSliceGaps [slice_of 0 5] 0 = [].
Proof. reflexivity. Qed.

Example test_mergeOverlap_adjacent :
  mergeOverlap [slice_of 0 5; slice_of 5 10] = [slice_of 0 10].
Proof. reflexivity. Qed.

(** A pattern that matches the empty string everywhere: every occurrence
    is suppressed and the loop ends after one turn per position. *)
Example empty_pattern_scan :
  slicing RefEngine.search 7 "ab cd" ["a"]
    (Some (MatchFn (fun _ => new_RegExp "" "g"))) = Some [].
Proof. vm_compute. reflexivity. Qed.

(** A custom expression without the global flag is not a cursor: [exec]
    finds the same occurrence at every turn. *)
Example non_global_never_stops :
  slicing RefEngine.search 1000 "ab cd" ["a"]
    (Some (MatchFn (fun w => new_RegExp w ""))) = None.
Proof. vm_compute. reflexivity. Qed.

(* ================================================================== *)
(** * The string helpers *)

Section Helpers.

Lemma white_space_not_special (c : ascii) :
  JS.is_white_space c = true -> is_special c = false.
Proof.
  destruct c as [[] [] [] [] [] [] [] []]; vm_compute; congruence.
Qed.

Lemma trim_only_white_space (s : string) :
  only_white_space s = true -> JS.trim s = "".
Proof.
  unfold JS.trim. induction s as [|c r IH]; simpl; intro H.
  - reflexivity.
  - apply andb_prop in H. destruct H as [Hc Hr]. rewrite Hc. auto.
Qed.

Lemma escapeRegex_only_white_space (s : string) :
  only_white_space s = true -> escapeRegex s = s.
Proof.
  induction s as [|c r IH]; simpl; intro H.
  - reflexivity.
  - apply andb_prop in H. destruct H as [Hc Hr].
    rewrite (white_space_not_special c Hc), (IH Hr). reflexivity.
Qed.

Lemma pattern_trim_empty (word : string) (b : Boundary) :
  JS.trim word = "" -> pattern word b = word.
Proof. intro H. unfold pattern. rewrite H. reflexivity. Qed.

Lemma eqb_neq_false (a b : string) : a <> b -> String.eqb a b = false.
Proof. intro H. apply String.eqb_neq. exact H. Qed.

Lemma In_Array_from_Set (w : string) (words : list string) :
  In w (JS.Array_from_Set words) <-> In w words.
Proof.
  induction words as [|x r IH]; simpl.
  - tauto.
  - rewrite filter_In, IH. destruct (String.eqb_spec w x) as [->|Hne]; simpl.
    + split; auto.
    + split.
      * intros [H|[H _]]; auto.
      * intros [H|H]; auto.
Qed.

Lemma In_search_terms (w : string) (words : list string) :
  In w (search_terms words) <-> In w words /\ w <> "".
Proof.
  unfold search_terms. rewrite map_id, filter_In, In_Array_from_Set.
  unfold JS.truthy. destruct (String.eqb_spec w ""); simpl; split;
    intros [H1 H2]; split; auto; congruence.
Qed.

End Helpers.

(** C9.  [pattern word boundary] is the word itself when the boundary is
    [false] or the trimmed word is empty; otherwise it is the word between
    [\b] and [\w+] for ['start'], between [\w+] and [\b] for ['end'], and
    between two [\b] for [true]. *)
Theorem pattern_cases (word : string) :
  pattern word (BBool false) = word
  /\ (forall b, JS.trim word = "" -> pattern word b = word)
  /\ (JS.trim word <> "" ->
      pattern word BStart = ("\b" ++ word ++ "\w+")%string
      /\ pattern word BEnd = ("\w+" ++ word ++ "\b")%string
      /\ pattern word (BBool true) = ("\b" ++ word ++ "\b")%string).
Proof.
  split; [|split].
  - unfold pattern. simpl. rewrite orb_true_r. reflexivity.
  - intros b H. apply pattern_trim_empty. exact H.
  - intro H. unfold pattern. rewrite (eqb_neq_false _ _ H). simpl. auto.
Qed.

Lemma pattern_cases_witness :
  JS.trim " " = ""
  /\ pattern " " BStart = " "
  /\ JS.trim "test" <> ""
  /\ pattern "test" BStart = "\btest\w+"
  /\ pattern "test" BEnd = "\w+test\b"
  /\ pattern "test" (BBool true) = "\btest\b".
Proof.
  assert (Hs : JS.trim " " = "") by reflexivity.
  assert (Ht : JS.trim "test" <> "") by (vm_compute; discriminate).
  split; [exact Hs|].
  split; [exact (proj1 (proj2 (pattern_cases " ")) BStart Hs)|].
  split; [exact Ht|].
  exact (proj2 (proj2 (pattern_cases "test")) Ht).
Defined.

(** C10.  A word of white space only survives the term filter, which drops
    the empty word and nothing else; [pattern] returns it unchanged for
    every boundary; so the default configuration builds for it the
    expression of the raw word, and scans as the custom matcher
    [word => new RegExp(word, 'gi')] does. *)
Theorem white_space_term (word : string) :
  word <> "" -> only_white_space word = true ->
  (forall words, In word words -> In word (search_terms words))
  /\ (forall w words, In w (search_terms words) <-> In w words /\ w <> "")
  /\ (forall b, pattern word b = word)
  /\ match_of_options default_options word = new_RegExp word "gi"
  /\ (forall search fuel text,
        slicing search fuel text [word] None
        = slicing search fuel text [word]
            (Some (MatchFn (fun w => new_RegExp w "gi")))).
Proof.
  intros Hne Hws.
  assert (Hp : forall b, pattern word b = word)
    by (intro b; apply pattern_trim_empty, trim_only_white_space, Hws).
  assert (Hm : match_of_options default_options word = new_RegExp word "gi").
  { unfold match_of_options. simpl.
    rewrite (escapeRegex_only_white_space word Hws), Hp. reflexivity. }
  split; [|split; [|split; [|split]]].
  - intros words H. apply In_search_terms. auto.
  - intros w words. apply In_search_terms.
  - exact Hp.
  - exact Hm.
  - intros search fuel text. unfold slicing, search_terms. simpl.
    unfold JS.truthy. rewrite (eqb_neq_false _ _ Hne). simpl.
    rewrite Hm. reflexivity.
Qed.

Lemma white_space_term_witness :
  In " " (search_terms ["a"; " "; ""])
  /\ pattern " " (BBool true) = " "
  /\ match_of_options default_options " " = new_RegExp " " "gi"
  /\ slicing RefEngine.search 5 "a b" [" "] None = Some [slice_of 1 2].
Proof.
  assert (Hne : " " <> "") by discriminate.
  assert (Hws : only_white_space " " = true) by reflexivity.
  destruct (white_space_term " " Hne Hws) as (H1 & _ & H3 & H4 & H5).
  split; [apply H1; simpl; auto|].
  split; [apply H3|].
  split; [exact H4|].
  rewrite H5. vm_compute. reflexivity.
Defined.

(* ================================================================== *)
(** * The matcher resolver *)

(** C2, as the specification states it, fails: a configuration object
    with every field omitted does not behave as the default configuration.
    For the word [a.] it builds the raw pattern, neither escaped nor
    anchored, and for the word [a] in the text [ab] it reports the
    occurrence that the default configuration rejects. *)
Lemma empty_config_is_not_default :
  match_of_options (mkOptions None None None) "a." = new_RegExp "a." "gi"
  /\ match_of_options default_options "a." = new_RegExp "\ba\.\b" "gi"
  /\ slicing RefEngine.search 4 "ab" ["a"]
       (Some (Config (mkOptions None None None))) = Some [slice_of 0 1]
  /\ slicing RefEngine.search 4 "ab" ["a"]
       (Some (Config default_options)) = Some []
  /\ ~ (forall search fuel text words,
          slicing search fuel text words
            (Some (Config (mkOptions None None None)))
          = slicing search fuel text words (Some (Config default_options))).
Proof.
  split; [reflexivity|]. split; [reflexivity|].
  split; [vm_compute; reflexivity|]. split; [vm_compute; reflexivity|].
  intro H. specialize (H RefEngine.search 4%nat "ab" ["a"]).
  vm_compute in H. discriminate.
Qed.

(** C2, amended.  The default configuration is the one used when the
    third argument is omitted: then the word is escaped, [pattern] is
    applied with [boundary = true] and matching ignores case.  In a
    configuration object that is passed, an omitted field acts as [false]:
    the word is escaped only when [escape] is [true], [pattern] is applied
    only for a [boundary] that is [true], ['start'] or ['end'], and matching
    ignores case unless [caseSensitive] is [true]. *)
Theorem options_defaults :
  (forall search fuel text words,
     slicing search fuel text words None
     = slicing search fuel text words (Some (Config default_options)))
  /\ (forall word,
        match_of_options default_options word
        = new_RegExp (pattern (escapeRegex word) (BBool true)) "gi")
  /\ (forall e b c word,
        match_of_options (mkOptions e b c) word
        = match_of_options
            (mkOptions (Some (match e with Some v => v | None => false end))
                       (Some (match b with Some v => v | None => BBool false end))
                       (Some (match c with Some v => v | None => false end)))
            word)
  /\ (forall word,
        match_of_options (mkOptions None None None) word
        = new_RegExp word "gi")
  /\ (forall e b c word,
        match_of_options (mkOptions e b c) word
        = new_RegExp
            (let w := match e with Some true => escapeRegex word | _ => word end in
             match b with
             | Some (BBool true) => pattern w (BBool true)
             | Some BStart => pattern w BStart
             | Some BEnd => pattern w BEnd
             | _ => w
             end)
            (match c with Some true => "g" | _ => "gi" end)).
Proof.
  split; [reflexivity|]. split; [reflexivity|].
  split; [|split; [reflexivity|]].
  - intros [[|]|] [[[|]| |]|] [[|]|] word; reflexivity.
  - intros [[|]|] [[[|]| |]|] [[|]|] word; reflexivity.
Qed.

(* ================================================================== *)
(** * The facade *)

(** C1.  [sliceText] is [fillSliceGaps] of [mergeOverlap] of [slicing] at
    the length of the text, for every text, word list and options value,
    and produces a result exactly when [slicing] does. *)
Theorem sliceText_is_composition :
  forall search fuel text searchWords options,
    sliceText search fuel text searchWords options
    = option_map
        (fun slices => fillSliceGaps (mergeOverlap slices) (JS.length text))
        (slicing search fuel text searchWords options).
Proof.
  intros. unfold sliceText.
  destruct (slicing search fuel text searchWords options); reflexivity.
Qed.

(* ================================================================== *)
(** * The gap filler *)

Section Filler.

Lemma push_spec (acc : list Slice) (s e : Z) (m : bool) :
  push acc s e m = if s <? e then acc ++ [mkSlice s e (Some m)] else acc.
Proof.
  unfold push. destruct (Z.ltb_spec 0 (e - s)), (Z.ltb_spec s e);
    try reflexivity; lia.
Qed.

Lemma chain_app (l1 l2 : list Slice) :
  forall a m b, chain a l1 m -> chain m l2 b -> chain a (l1 ++ l2) b.
Proof.
  induction l1 as [|s r IH]; simpl; intros a m b H1 H2.
  - subst. exact H2.
  - destruct H1 as (Hs & Hlt & Hr). repeat split; eauto.
Qed.

Lemma chain_push (acc : list Slice) (a0 a e : Z) (m : bool) :
  a <= e -> chain a0 acc a -> chain a0 (push acc a e m) e.
Proof.
  intros Hle Hc. rewrite push_spec. destruct (Z.ltb_spec a e).
  - apply chain_app with (m := a); [exact Hc|]. simpl. auto.
  - assert (a = e) by lia. subst. exact Hc.
Qed.

Lemma chain_le (l : list Slice) : forall a b, chain a l b -> a <= b.
Proof.
  induction l as [|s r IH]; simpl; intros a b H.
  - lia.
  - destruct H as (_ & Hlt & Hr). apply IH in Hr. lia.
Qed.

(** The loop keeps a chain from the first position to the cursor. *)
Lemma fill_loop_chain (slices : list Slice) :
  forall acc lo hi a0,
    within lo slices hi -> chain a0 acc lo ->
    chain a0 (fst (fold_left fill_step slices (acc, lo)))
          (snd (fold_left fill_step slices (acc, lo)))
    /\ snd (fold_left fill_step slices (acc, lo)) <= hi.
Proof.
  induction slices as [|s r IH]; simpl; intros acc lo hi a0 Hw Hc.
  - auto.
  - destruct Hw as (H1 & H2 & Hr). apply IH; [exact Hr|].
    apply chain_push; [exact H2|]. apply chain_push; assumption.
Qed.

(** The result of the filler is a chain from 0 that reaches the length of
    the text, and ends there when the spans do. *)
Lemma fill_chain (slices : list Slice) (textLength hi : Z) :
  textLength <> 0 -> within 0 slices hi ->
  exists b, chain 0 (fillSliceGaps slices textLength) b
            /\ textLength <= b /\ b <= Z.max hi textLength.
Proof.
  intros HL Hw. unfold fillSliceGaps.
  destruct (Z.eqb_spec textLength 0) as [|_]; [contradiction|].
  assert (Hgen : exists b,
    chain 0 (push (fst (fold_left fill_step slices ([], 0)))
                  (snd (fold_left fill_step slices ([], 0))) textLength false) b
    /\ textLength <= b /\ b <= Z.max hi textLength).
  { destruct (fill_loop_chain slices [] 0 hi 0 Hw eq_refl) as [Hc Hle].
    set (acc := fst (fold_left fill_step slices ([], 0))) in *.
    set (lo := snd (fold_left fill_step slices ([], 0))) in *.
    destruct (Z.le_gt_cases lo textLength) as [Hlo|Hlo].
    - exists textLength. split; [apply chain_push; assumption|lia].
    - exists lo. rewrite push_spec.
      destruct (Z.ltb_spec lo textLength); [lia|]. split; [exact Hc|lia]. }
  destruct slices as [|s r]; [exact Hgen|].
  destruct (fold_left fill_step (s :: r) ([], 0)) as [acc lo]. exact Hgen.
Qed.

Lemma chain_total_length (l : list Slice) :
  forall a b, chain a l b -> total_length l = b - a.
Proof.
  induction l as [|s r IH]; simpl; intros a b H.
  - lia.
  - destruct H as (Hs & _ & Hr). rewrite (IH _ _ Hr). lia.
Qed.

Lemma chain_contiguous (l : list Slice) :
  forall a b, chain a l b -> contiguous l.
Proof.
  induction l as [|s r IH]; intros a b H i x y Hx Hy.
  - destruct i; discriminate.
  - destruct H as (_ & _ & Hr). destruct i as [|i]; simpl in Hx, Hy.
    + injection Hx as <-. destruct r as [|t r']; [discriminate|].
      injection Hy as <-. simpl in Hr. symmetry. apply Hr.
    + exact (IH _ _ Hr i x y Hx Hy).
Qed.

Lemma chain_non_empty (l : list Slice) :
  forall a b, chain a l b -> Forall non_empty l.
Proof.
  induction l as [|s r IH]; simpl; intros a b H; constructor.
  - unfold non_empty. lia.
  - destruct H as (_ & _ & Hr). eauto.
Qed.

Lemma push_non_empty (acc : list Slice) (s e : Z) (m : bool) :
  Forall non_empty acc -> Forall non_empty (push acc s e m).
Proof.
  intro H. rewrite push_spec. destruct (Z.ltb_spec s e); [|exact H].
  apply Forall_app. split; [exact H|]. constructor; [|constructor].
  exact H0.
Qed.

Lemma fill_loop_non_empty (slices : list Slice) :
  forall acc lo,
    Forall non_empty acc ->
    Forall non_empty (fst (fold_left fill_step slices (acc, lo))).
Proof.
  induction slices as [|s r IH]; simpl; intros acc lo H.
  - exact H.
  - apply IH. apply push_non_empty, push_non_empty, H.
Qed.

Lemma fillSliceGaps_non_empty (slices : list Slice) (textLength : Z) :
  Forall non_empty (fillSliceGaps slices textLength).
Proof.
  unfold fillSliceGaps. destruct (textLength =? 0); [constructor|].
  destruct slices as [|s r]; [apply push_non_empty; constructor|].
  pose proof (fill_loop_non_empty (s :: r) [] 0 (Forall_nil _)) as H.
  destruct (fold_left fill_step (s :: r) ([], 0)) as [acc lo].
  apply push_non_empty. exact H.
Qed.

End Filler.

(** C3.  [fillSliceGaps] returns nothing for a text of length 0, whatever
    the spans; the single unmatched span of the whole text for no spans and
    a positive length; and for a positive length and sorted spans that do
    not overlap and lie in the text, spans whose lengths add up to the
    length of the text and each of which ends where the next begins. *)
Theorem fillSliceGaps_total_partition :
  (forall spans, fillSliceGaps spans 0 = [])
  /\ (forall textLength, 0 < textLength ->
        fillSliceGaps [] textLength = [mkSlice 0 textLength (Some false)])
  /\ (forall spans textLength,
        0 < textLength -> within 0 spans textLength ->
        total_length (fillSliceGaps spans textLength) = textLength
        /\ contiguous (fillSliceGaps spans textLength)).
Proof.
  split; [reflexivity|]. split.
  - intros L HL. unfold fillSliceGaps.
    destruct (Z.eqb_spec L 0); [lia|]. rewrite push_spec.
    destruct (Z.ltb_spec 0 L); [reflexivity|lia].
  - intros spans L HL Hw.
    destruct (fill_chain spans L L) as (b & Hc & H1 & H2); [lia|exact Hw|].
    assert (b = L) by lia. subst b. split.
    + rewrite (chain_total_length _ _ _ Hc). lia.
    + exact (chain_contiguous _ _ _ Hc).
Qed.

Lemma fillSliceGaps_total_partition_witness :
  fillSliceGaps [] 10 = [mkSlice 0 10 (Some false)]
  /\ total_length (fillSliceGaps [slice_of 5 10; slice_of 10 12; slice_of 15 20] 25) = 25
  /\ contiguous (fillSliceGaps [slice_of 5 10; slice_of 10 12; slice_of 15 20] 25).
Proof.
  split.
  - apply (proj1 (proj2 fillSliceGaps_total_partition) 10). lia.
  - apply (proj2 (proj2 fillSliceGaps_total_partition)
             [slice_of 5 10; slice_of 10 12; slice_of 15 20] 25).
    + lia.
    + simpl. lia.
Defined.

(* ================================================================== *)
(** * The merger *)

Section Merger.

Lemma insert_by_start_perm (x : Slice) (l : list Slice) :
  Permutation (x :: l) (insert_by_start x l).
Proof.
  induction l as [|y r IH]; simpl.
  - apply Permutation_refl.
  - destruct (start x <=? start y).
    + apply Permutation_refl.
    + eapply perm_trans; [apply perm_swap|]. apply perm_skip, IH.
Qed.

Lemma toSorted_perm (l : list Slice) : Permutation l (toSorted l).
Proof.
  induction l as [|x r IH]; simpl.
  - constructor.
  - eapply perm_trans; [apply perm_skip, IH|]. apply insert_by_start_perm.
Qed.

Lemma insert_by_start_sorted (x : Slice) (l : list Slice) :
  StronglySorted by_start l -> StronglySorted by_start (insert_by_start x l).
Proof.
  induction 1 as [|y r Hr IH Hy]; simpl.
  - repeat constructor.
  - destruct (Z.leb_spec (start x) (start y)) as [Hle|Hgt].
    + constructor; [constructor; assumption|].
      constructor; [exact Hle|].
      eapply Forall_impl; [|exact Hy]. unfold by_start. intros; lia.
    + constructor; [exact IH|].
      eapply Permutation_Forall; [apply insert_by_start_perm|].
      constructor; [unfold by_start; lia|exact Hy].
Qed.

Lemma toSorted_sorted (l : list Slice) : StronglySorted by_start (toSorted l).
Proof.
  induction l as [|x r IH]; simpl.
  - constructor.
  - apply insert_by_start_sorted, IH.
Qed.

Lemma toSorted_id (l : list Slice) :
  StronglySorted by_start l -> toSorted l = l.
Proof.
  induction 1 as [|x r Hr IH Hx]; simpl.
  - reflexivity.
  - rewrite IH. destruct r as [|y r']; simpl; [reflexivity|].
    apply Forall_inv in Hx. unfold by_start in Hx.
    destruct (Z.leb_spec (start x) (start y)); [reflexivity|lia].
Qed.

(** The loop of the source and the merger of the specification. *)
Lemma fold_merge_step (rest : list Slice) :
  forall merged current,
    fst (fold_left merge_step rest (merged, current))
      ++ [snd (fold_left merge_step rest (merged, current))]
    = merged ++ coalesce_from current rest.
Proof.
  induction rest as [|next r IH]; simpl; intros merged current.
  - reflexivity.
  - destruct (start next <=? end_ current).
    + apply IH.
    + rewrite IH, <- app_assoc. reflexivity.
Qed.

Lemma mergeOverlap_coalesce (slices : list Slice) :
  mergeOverlap slices = coalesce (toSorted slices).
Proof.
  unfold mergeOverlap, coalesce. destruct slices as [|x r]; [reflexivity|].
  destruct (toSorted (x :: r)) as [|current rest]; [reflexivity|].
  pose proof (fold_merge_step rest [] current) as H.
  destruct (fold_left merge_step rest ([], current)) as [merged c].
  exact H.
Qed.

(** ** Spans that are not empty stay so *)

Lemma coalesce_from_Forall (P : Slice -> Prop) :
  (forall c n, P c -> P n ->
               P (slice_of (start c) (Z.max (end_ c) (end_ n)))) ->
  forall rest current,
    P current -> Forall P rest -> Forall P (coalesce_from current rest).
Proof.
  intros HP. induction rest as [|n r IH]; simpl; intros c Hc Hr.
  - repeat constructor. exact Hc.
  - inversion Hr; subst. destruct (start n <=? end_ c).
    + apply IH; auto.
    + constructor; auto.
Qed.

Lemma mergeOverlap_Forall (P : Slice -> Prop) (slices : list Slice) :
  (forall c n, P c -> P n ->
               P (slice_of (start c) (Z.max (end_ c) (end_ n)))) ->
  Forall P slices -> Forall P (mergeOverlap slices).
Proof.
  intros HP H. rewrite mergeOverlap_coalesce.
  apply (Permutation_Forall (toSorted_perm slices)) in H.
  unfold coalesce. destruct (toSorted slices) as [|c r]; [constructor|].
  inversion H; subst. apply coalesce_from_Forall; assumption.
Qed.

Lemma mergeOverlap_non_empty (slices : list Slice) :
  Forall non_empty slices -> Forall non_empty (mergeOverlap slices).
Proof.
  apply mergeOverlap_Forall. unfold non_empty. simpl. intros; lia.
Qed.

(** ** The order of spans with the same start does not matter *)

Lemma coalesce_from_cons_congr (b : Slice) (r1 r2 : list Slice) :
  (forall c, coalesce_from c r1 = coalesce_from c r2) ->
  forall c, coalesce_from c (b :: r1) = coalesce_from c (b :: r2).
Proof.
  intros H c. simpl. destruct (start b <=? end_ c); rewrite H; reflexivity.
Qed.

Lemma coalesce_from_swap (a b : Slice) (r : list Slice) :
  start a = start b -> well_formed a -> well_formed b ->
  forall c, coalesce_from c (a :: b :: r) = coalesce_from c (b :: a :: r).
Proof.
  unfold well_formed. intros Hab Ha Hb c. simpl.
  destruct (Z.leb_spec (start a) (end_ c)) as [Hle|Hgt];
    destruct (Z.leb_spec (start b) (end_ c)) as [Hle'|Hgt']; try lia; simpl.
  - destruct (Z.leb_spec (start b) (Z.max (end_ c) (end_ a))); [|lia].
    destruct (Z.leb_spec (start a) (Z.max (end_ c) (end_ b))); [|lia].
    f_equal. f_equal. lia.
  - destruct (Z.leb_spec (start b) (end_ a)); [|lia].
    destruct (Z.leb_spec (start a) (end_ b)); [|lia].
    rewrite Hab. do 3 f_equal. lia.
Qed.

Lemma coalesce_from_move_front (a : Slice) (p q : list Slice) :
  well_formed a ->
  Forall (fun b => start b = start a /\ well_formed b) p ->
  forall c, coalesce_from c (p ++ a :: q) = coalesce_from c (a :: p ++ q).
Proof.
  intros Ha. induction 1 as [|b p' [Hb1 Hb2] Hp IH]; intro c.
  - reflexivity.
  - change ((b :: p') ++ a :: q) with (b :: (p' ++ a :: q)).
    rewrite (coalesce_from_cons_congr b _ _ IH).
    apply coalesce_from_swap; auto.
Qed.

Lemma sorted_app_left (p q : list Slice) (a : Slice) :
  StronglySorted by_start (p ++ a :: q) ->
  StronglySorted by_start (p ++ q) /\ Forall (fun b => start b <= start a) p.
Proof.
  induction p as [|b p' IH]; simpl; intro H.
  - inversion H; subst. auto.
  - inversion H as [|? ? Hs Hf]; subst. destruct (IH Hs) as [IH1 IH2].
    rewrite Forall_app in Hf. destruct Hf as [Hf1 Hf2]. split.
    + constructor; [exact IH1|]. apply Forall_app. split; [exact Hf1|].
      inversion Hf2; assumption.
    + constructor; [|exact IH2]. inversion Hf2; assumption.
Qed.

(** Two sorted arrangements of the same well-formed spans coalesce to
    the same result, from any accumulator. *)
Lemma coalesce_from_sorted_perm (r1 : list Slice) :
  forall r2,
    StronglySorted by_start r1 -> StronglySorted by_start r2 ->
    Permutation r1 r2 -> Forall well_formed r1 ->
    forall c, coalesce_from c r1 = coalesce_from c r2.
Proof.
  induction r1 as [|a r1' IH]; intros r2 Hs1 Hs2 Hp Hwf c.
  - apply Permutation_nil in Hp. subst. reflexivity.
  - assert (Hin : In a r2) by (eapply Permutation_in; [exact Hp|left; reflexivity]).
    destruct (in_split _ _ Hin) as (p & q & ->).
    pose proof (Permutation_cons_app_inv _ _ Hp) as Hp'.
    destruct (sorted_app_left _ _ _ Hs2) as [Hs2' Hple].
    inversion Hs1 as [|? ? Hs1' Hage]; subst.
    inversion Hwf as [|? ? Ha Hwf']; subst.
    assert (Hpq : Forall (fun b => start a <= start b /\ well_formed b) (p ++ q)).
    { eapply Permutation_Forall; [exact Hp'|].
      rewrite Forall_forall in *. intros x Hx. split; auto.
      apply Hage. exact Hx. }
    rewrite coalesce_from_move_front; [| exact Ha |].
    + apply coalesce_from_cons_congr. intro c'. apply IH; assumption.
    + rewrite Forall_app in Hpq. destruct Hpq as [Hpq _].
      rewrite Forall_forall in *. intros x Hx.
      destruct (Hpq x Hx) as [H1 H2]. specialize (Hple x Hx). split; [lia|exact H2].
Qed.

(** ** A sentinel in front of the spans turns [coalesce] into
       [coalesce_from] *)

Lemma below_lt (l : list Slice) : Forall (fun s => below l < start s) l.
Proof.
  induction l as [|x r IH]; simpl; constructor.
  - lia.
  - eapply Forall_impl; [|exact IH]. simpl. intros; lia.
Qed.

Lemma coalesce_sentinel (l : list Slice) (e : Z) :
  Forall (fun s => e < start s) l ->
  coalesce_from (slice_of e e) l = slice_of e e :: coalesce l.
Proof.
  destruct l as [|x r]; simpl; intro H.
  - reflexivity.
  - apply Forall_inv in H. destruct (Z.leb_spec (start x) e); [lia|reflexivity].
Qed.

Lemma coalesce_sorted_perm (l1 l2 : list Slice) :
  StronglySorted by_start l1 -> StronglySorted by_start l2 ->
  Permutation l1 l2 -> Forall well_formed l1 ->
  coalesce l1 = coalesce l2.
Proof.
  intros Hs1 Hs2 Hp Hwf.
  pose proof (coalesce_from_sorted_perm l1 l2 Hs1 Hs2 Hp Hwf
                (slice_of (below l1) (below l1))) as H.
  rewrite !coalesce_sentinel in H.
  - injection H. auto.
  - eapply Permutation_Forall; [exact Hp|]. apply below_lt.
  - apply below_lt.
Qed.

Lemma mergeOverlap_perm (l1 l2 : list Slice) :
  Forall well_formed l1 -> Permutation l1 l2 ->
  mergeOverlap l1 = mergeOverlap l2.
Proof.
  intros Hwf Hp. rewrite !mergeOverlap_coalesce.
  apply coalesce_sorted_perm; try apply toSorted_sorted.
  - eapply perm_trans; [apply Permutation_sym, toSorted_perm|].
    eapply perm_trans; [exact Hp|apply toSorted_perm].
  - eapply Permutation_Forall; [apply toSorted_perm|exact Hwf].
Qed.

(** ** What the merger produces is separated, and merging it again
       changes nothing *)

Lemma coalesce_from_separated (rest : list Slice) :
  forall current e,
    e < start current -> well_formed current ->
    Forall (fun s => start current <= start s /\ well_formed s) rest ->
    StronglySorted by_start rest ->
    separated_from e (coalesce_from current rest).
Proof.
  unfold well_formed.
  induction rest as [|n r IH]; simpl; intros c e He Hc Hr Hs.
  - auto.
  - inversion Hr as [|? ? [Hn1 Hn2] Hr']; subst.
    inversion Hs as [|? ? Hs' Hn]; subst.
    destruct (Z.leb_spec (start n) (end_ c)) as [Hle|Hgt].
    + apply IH; simpl; try assumption; try lia.
    + simpl. repeat split; try assumption. apply IH; try assumption.
      rewrite Forall_forall in *. intros x Hx.
      specialize (Hn x Hx). specialize (Hr' x Hx).
      unfold by_start in Hn. tauto.
Qed.

Lemma mergeOverlap_separated (slices : list Slice) (e : Z) :
  Forall (fun s => e < start s /\ well_formed s) slices ->
  separated_from e (mergeOverlap slices).
Proof.
  intro H. rewrite mergeOverlap_coalesce.
  apply (Permutation_Forall (toSorted_perm slices)) in H.
  pose proof (toSorted_sorted slices) as Hs.
  unfold coalesce. destruct (toSorted slices) as [|c r]; [exact I|].
  inversion H as [|? ? [Hc1 Hc2] Hr]; subst.
  inversion Hs as [|? ? Hs' Hc]; subst.
  apply coalesce_from_separated; try assumption.
  rewrite Forall_forall in *. intros x Hx. split.
  - apply (Hc x Hx).
  - apply (Hr x Hx).
Qed.

Lemma separated_from_weaken (l : list Slice) (e e' : Z) :
  e' <= e -> separated_from e l -> separated_from e' l.
Proof. destruct l; simpl; [auto|]. intros H (H1 & H2 & H3). repeat split; auto; lia. Qed.

Lemma separated_from_sorted (l : list Slice) :
  forall e, separated_from e l ->
            StronglySorted by_start l /\ Forall (fun s => e < start s) l.
Proof.
  induction l as [|x r IH]; simpl; intros e H.
  - split; constructor.
  - destruct H as (H1 & H2 & H3). destruct (IH _ H3) as [IH1 IH2].
    assert (Hf : Forall (fun s => start x < start s) r)
      by (eapply Forall_impl; [|exact IH2]; simpl; intros; lia).
    split; constructor; auto.
    + eapply Forall_impl; [|exact Hf]. unfold by_start. simpl. intros; lia.
    + eapply Forall_impl; [|exact Hf]. simpl. intros; lia.
Qed.

Lemma coalesce_from_id (l : list Slice) :
  forall c, separated_from (end_ c) l -> coalesce_from c l = c :: l.
Proof.
  induction l as [|x r IH]; simpl; intros c H.
  - reflexivity.
  - destruct H as (H1 & H2 & H3).
    destruct (Z.leb_spec (start x) (end_ c)); [lia|]. rewrite IH; auto.
Qed.

Lemma mergeOverlap_id (l : list Slice) (e : Z) :
  separated_from e l -> mergeOverlap l = l.
Proof.
  intro H. rewrite mergeOverlap_coalesce.
  rewrite toSorted_id by (apply (separated_from_sorted l e H)).
  destruct l as [|x r]; [reflexivity|]. simpl.
  apply coalesce_from_id. simpl in H. tauto.
Qed.

Lemma mergeOverlap_idempotent (slices : list Slice) :
  Forall well_formed slices ->
  mergeOverlap (mergeOverlap slices) = mergeOverlap slices.
Proof.
  intro H. apply mergeOverlap_id with (e := below slices).
  apply mergeOverlap_separated.
  pose proof (below_lt slices) as Hb.
  rewrite Forall_forall in *. intros x Hx. split; auto.
Qed.

(** ** A span given twice *)

Lemma coalesce_from_erase (rest : list Slice) :
  forall c c',
    erase c = erase c' ->
    map erase (coalesce_from c rest) = map erase (coalesce_from c' rest).
Proof.
  induction rest as [|n r IH]; simpl; intros c c' H.
  - rewrite H. reflexivity.
  - unfold erase, slice_of in H. injection H as Hs He. rewrite He, Hs.
    destruct (start n <=? end_ c').
    + reflexivity.
    + simpl. unfold erase at 1 3. rewrite Hs, He. reflexivity.
Qed.

Lemma coalesce_from_twice (x : Slice) (r : list Slice) :
  well_formed x ->
  forall c, map erase (coalesce_from c (x :: x :: r))
            = map erase (coalesce_from c (x :: r)).
Proof.
  unfold well_formed. intros Hx c. simpl.
  destruct (Z.leb_spec (start x) (end_ c)); simpl.
  - destruct (Z.leb_spec (start x) (Z.max (end_ c) (end_ x))); [|lia].
    apply coalesce_from_erase. unfold erase. simpl. f_equal. lia.
  - destruct (Z.leb_spec (start x) (end_ x)); [|lia]. f_equal.
    apply coalesce_from_erase. unfold erase. simpl. f_equal. lia.
Qed.

Lemma coalesce_from_erase_prefix (p r1 r2 : list Slice) :
  (forall c, map erase (coalesce_from c r1) = map erase (coalesce_from c r2)) ->
  forall c, map erase (coalesce_from c (p ++ r1))
            = map erase (coalesce_from c (p ++ r2)).
Proof.
  intro H. induction p as [|b p' IH]; simpl; intro c.
  - apply H.
  - destruct (start b <=? end_ c); simpl; rewrite IH; reflexivity.
Qed.

Lemma sorted_twice (p q : list Slice) (x : Slice) :
  StronglySorted by_start (p ++ x :: q) ->
  StronglySorted by_start (p ++ x :: x :: q).
Proof.
  induction p as [|b p' IH]; simpl; intro H.
  - constructor; [exact H|]. constructor; [unfold by_start; lia|].
    inversion H; assumption.
  - inversion H as [|? ? Hs Hf]; subst. constructor; [apply IH, Hs|].
    rewrite Forall_app in *. destruct Hf as [Hf1 Hf2]. split; [exact Hf1|].
    inversion Hf2; subst. repeat constructor; assumption.
Qed.

Lemma mergeOverlap_twice (x : Slice) (l : list Slice) :
  Forall well_formed l -> In x l ->
  map erase (mergeOverlap (x :: l)) = map erase (mergeOverlap l).
Proof.
  intros Hwf Hin. rewrite !mergeOverlap_coalesce.
  assert (Hx : well_formed x) by (rewrite Forall_forall in Hwf; auto).
  assert (Hin' : In x (toSorted l))
    by (eapply Permutation_in; [apply toSorted_perm|exact Hin]).
  destruct (in_split _ _ Hin') as (p & q & Hpq).
  pose proof (toSorted_sorted l) as Hs. rewrite Hpq in Hs.
  assert (Hperm : Permutation (toSorted (x :: l)) (p ++ x :: x :: q)).
  { eapply perm_trans; [apply Permutation_sym, toSorted_perm|].
    eapply perm_trans; [apply perm_skip, (toSorted_perm l)|].
    rewrite Hpq. apply Permutation_middle. }
  rewrite (coalesce_sorted_perm (toSorted (x :: l)) (p ++ x :: x :: q)).
  - rewrite Hpq.
    set (e := below (p ++ x :: x :: q)).
    assert (Hb : Forall (fun s => e < start s) (p ++ x :: x :: q))
      by apply below_lt.
    assert (Hb' : Forall (fun s => e < start s) (p ++ x :: q)).
    { rewrite Forall_app in *. destruct Hb as [H1 H2]. split; [exact H1|].
      inversion H2; assumption. }
    pose proof (coalesce_from_erase_prefix p _ _ (coalesce_from_twice x q Hx)
                  (slice_of e e)) as H.
    rewrite !coalesce_sentinel in H by assumption.
    simpl in H. injection H. auto.
  - apply toSorted_sorted.
  - apply sorted_twice, Hs.
  - exact Hperm.
  - eapply Permutation_Forall; [apply toSorted_perm|].
    constructor; assumption.
Qed.

Lemma mergeOverlap_duplicates (l d : list Slice) :
  Forall well_formed l -> incl d l ->
  map erase (mergeOverlap (l ++ d)) = map erase (mergeOverlap l).
Proof.
  intro Hwf. induction d as [|x d' IH]; intro Hd.
  - rewrite app_nil_r. reflexivity.
  - assert (Hx : In x l) by (apply Hd; left; reflexivity).
    assert (Hd' : incl d' l) by (intros y Hy; apply Hd; right; exact Hy).
    assert (Hwf' : Forall well_formed (l ++ d')).
    { apply Forall_app. split; [exact Hwf|].
      rewrite Forall_forall in *. intros y Hy. apply Hwf, Hd', Hy. }
    rewrite (mergeOverlap_perm (l ++ x :: d') (x :: l ++ d')).
    + rewrite mergeOverlap_twice; [apply IH, Hd'|exact Hwf'|].
      apply in_or_app. left. exact Hx.
    + apply Forall_app. split; [exact Hwf|].
      rewrite Forall_forall in *. intros y Hy. apply Hwf, Hd, Hy.
    + apply Permutation_sym, Permutation_middle.
Qed.

Lemma erase_unflagged (l : list Slice) :
  Forall unflagged l -> map erase l = l.
Proof.
  induction 1 as [|x r Hx Hr IH]; simpl; [reflexivity|].
  rewrite IH. destruct x as [s e m]. unfold unflagged in Hx. simpl in Hx.
  subst. reflexivity.
Qed.

Lemma mergeOverlap_unflagged (l : list Slice) :
  Forall unflagged l -> Forall unflagged (mergeOverlap l).
Proof. apply mergeOverlap_Forall. reflexivity. Qed.

End Merger.

(** C4.  [mergeOverlap] gives nothing for no spans and otherwise sorts
    the spans by [start] and coalesces them as the specification says:
    the first sorted span is the accumulator, a span that starts at or
    before the end of the accumulator extends it to the larger end, any
    other span flushes the accumulator and becomes the new one, and the
    last accumulator is flushed. *)
Theorem mergeOverlap_greedy :
  mergeOverlap [] = []
  /\ (forall slices,
        mergeOverlap slices = coalesce (toSorted slices)
        /\ StronglySorted by_start (toSorted slices)
        /\ Permutation slices (toSorted slices))
  /\ (forall current, coalesce_from current [] = [current])
  /\ (forall current next rest,
        start next <= end_ current ->
        coalesce_from current (next :: rest)
        = coalesce_from
            (slice_of (start current) (Z.max (end_ current) (end_ next))) rest)
  /\ (forall current next rest,
        end_ current < start next ->
        coalesce_from current (next :: rest)
        = current :: coalesce_from next rest)
  /\ mergeOverlap [slice_of 0 5; slice_of 5 10] = [slice_of 0 10]
  /\ mergeOverlap [slice_of 0 5; slice_of 3 8; slice_of 10 15]
     = [slice_of 0 8; slice_of 10 15].
Proof.
  split; [reflexivity|]. split; [|split; [reflexivity|split; [|split]]].
  - intro slices. split; [apply mergeOverlap_coalesce|].
    split; [apply toSorted_sorted|apply toSorted_perm].
  - intros c n r H. simpl. destruct (Z.leb_spec (start n) (end_ c)); [reflexivity|lia].
  - intros c n r H. simpl. destruct (Z.leb_spec (start n) (end_ c)); [lia|reflexivity].
  - split; reflexivity.
Qed.

Lemma mergeOverlap_greedy_witness :
  coalesce_from (slice_of 0 5) [slice_of 5 8; slice_of 10 15]
  = coalesce_from (slice_of 0 8) [slice_of 10 15]
  /\ coalesce_from (slice_of 0 8) [slice_of 10 15]
     = slice_of 0 8 :: coalesce_from (slice_of 10 15) [].
Proof.
  split.
  - apply (proj1 (proj2 (proj2 (proj2 mergeOverlap_greedy)))
             (slice_of 0 5) (slice_of 5 8) [slice_of 10 15]).
    simpl. lia.
  - apply (proj1 (proj2 (proj2 (proj2 (proj2 mergeOverlap_greedy))))
             (slice_of 0 8) (slice_of 10 15) []).
    simpl. lia.
Defined.

(** C5, as the specification states it, fails for spans that carry a
    [matched] flag: a span on its own is returned as it is, flag
    included, while the same span given twice is merged into a new span
    without a flag. *)
Lemma duplicate_drops_flag :
  mergeOverlap [mkSlice 0 5 (Some true)] = [mkSlice 0 5 (Some true)]
  /\ mergeOverlap [mkSlice 0 5 (Some true); mkSlice 0 5 (Some true)]
     = [mkSlice 0 5 None]
  /\ ~ (forall S d, Forall well_formed S -> incl d S ->
                   mergeOverlap (S ++ d) = mergeOverlap S).
Proof.
  split; [reflexivity|]. split; [reflexivity|].
  intro H.
  specialize (H [mkSlice 0 5 (Some true)] [mkSlice 0 5 (Some true)]).
  assert (Hwf : Forall well_formed [mkSlice 0 5 (Some true)])
    by (repeat constructor; unfold well_formed; simpl; lia).
  specialize (H Hwf (incl_refl _)). discriminate H.
Qed.

(** C5, amended.  For well-formed spans, merging a merged list changes
    nothing, and the result does not depend on the order of the input;
    giving spans more than once leaves the positions of the result
    unchanged, and the whole result when the spans carry no flag. *)
Theorem mergeOverlap_multiset (S : list Slice) :
  Forall well_formed S ->
  mergeOverlap (mergeOverlap S) = mergeOverlap S
  /\ (forall S', Permutation S S' -> mergeOverlap S' = mergeOverlap S)
  /\ (forall d, incl d S ->
        map erase (mergeOverlap (S ++ d)) = map erase (mergeOverlap S)
        /\ (Forall unflagged S -> mergeOverlap (S ++ d) = mergeOverlap S)).
Proof.
  intro Hwf. split; [apply mergeOverlap_idempotent, Hwf|]. split.
  - intros S' Hp. symmetry. apply mergeOverlap_perm; assumption.
  - intros d Hd.
    pose proof (mergeOverlap_duplicates S d Hwf Hd) as He.
    split; [exact He|]. intro Hu.
    assert (Hu' : Forall unflagged (S ++ d)).
    { apply Forall_app. split; [exact Hu|].
      rewrite Forall_forall in *. intros y Hy. apply Hu, Hd, Hy. }
    rewrite <- (erase_unflagged _ (mergeOverlap_unflagged _ Hu')).
    rewrite <- (erase_unflagged _ (mergeOverlap_unflagged _ Hu)).
    exact He.
Qed.

Lemma mergeOverlap_multiset_witness :
  mergeOverlap (mergeOverlap [slice_of 3 8; slice_of 10 15; slice_of 0 5])
  = mergeOverlap [slice_of 3 8; slice_of 10 15; slice_of 0 5]
  /\ mergeOverlap [slice_of 0 5; slice_of 3 8; slice_of 10 15]
     = mergeOverlap [slice_of 3 8; slice_of 10 15; slice_of 0 5]
  /\ mergeOverlap ([slice_of 3 8; slice_of 10 15; slice_of 0 5] ++ [slice_of 0 5])
     = mergeOverlap [slice_of 3 8; slice_of 10 15; slice_of 0 5].
Proof.
  assert (Hwf : Forall well_formed [slice_of 3 8; slice_of 10 15; slice_of 0 5])
    by (repeat constructor; unfold well_formed; simpl; lia).
  destruct (mergeOverlap_multiset _ Hwf) as (H1 & H2 & H3).
  split; [exact H1|]. split.
  - apply H2.
    apply Permutation_sym, (Permutation_cons_append [slice_of 3 8; slice_of 10 15]).
  - apply (H3 [slice_of 0 5]).
    + intros y [<-|[]]. simpl. auto.
    + repeat constructor.
Defined.

(* ================================================================== *)
(** * The scanner *)

(** The reference engine respects the cursor. *)
Lemma find_from_ge (ic : bool) (atoms : list RefEngine.atom) (s : list ascii) :
  forall prev pos i len,
    RefEngine.find_from ic atoms prev s pos = Some (i, len) -> (pos <= i)%nat.
Proof.
  induction s as [|c r IH]; simpl; intros prev pos i len H.
  - destruct (RefEngine.match_here ic atoms prev []); [|discriminate].
    injection H as <- _. lia.
  - destruct (RefEngine.match_here ic atoms prev (c :: r)).
    + injection H as <- _. lia.
    + apply IH in H. lia.
Qed.

Lemma RefEngine_cursor_respecting : cursor_respecting RefEngine.search.
Proof.
  intros src fl text from i len. unfold RefEngine.search.
  destruct (RefEngine.drop_to from None (list_ascii_of_string text))
    as [[prev s]|]; [|discriminate].
  apply find_from_ge.
Qed.

Section Scanner.

Variable search : Engine.

Lemma tracks_set_lastIndex (r : RegExp) (i : nat) :
  tracks (set_lastIndex r i) = tracks r.
Proof. reflexivity. Qed.

(** One turn of the loop for an expression that keeps a cursor. *)
Lemma loop_body_tracks (r : RegExp) (text : string) (slices : list Slice) :
  tracks r = true ->
  loop_body search r text slices
  = if (String.length text <? lastIndex r)%nat then None
    else
      match search (source r) (flags r) text (lastIndex r) with
      | None => None
      | Some (i, len) =>
          Some (set_lastIndex r (if Nat.eqb len 0 then i + 1 else i + len)%nat,
                if (0 <? len)%nat
                then slices ++ [slice_of (Z.of_nat i) (Z.of_nat (i + len))]
                else slices)
      end.
Proof.
  intro Ht. unfold loop_body, exec. rewrite Ht.
  destruct (String.length text <? lastIndex r)%nat; [reflexivity|].
  destruct (search (source r) (flags r) text (lastIndex r)) as [[i len]|];
    [|reflexivity].
  simpl. destruct len as [|len].
  - replace (i + 0)%nat with i by lia. rewrite Z.ltb_irrefl, Z.eqb_refl.
    reflexivity.
  - simpl. destruct (Z.ltb_spec (Z.of_nat i) (Z.of_nat (i + S len))); [|lia].
    destruct (Z.eqb_spec (Z.of_nat i) (Z.of_nat (i + S len))); [lia|].
    reflexivity.
Qed.

Lemma loop_body_scanned (r r' : RegExp) (text : string)
  (slices slices' : list Slice) :
  loop_body search r text slices = Some (r', slices') ->
  Forall scanned slices -> Forall scanned slices'.
Proof.
  unfold loop_body. destruct (exec search r text) as [r1 [index|]];
    [|discriminate].
  intros H Hs. injection H as _ <-.
  destruct (Z.ltb_spec (Z.of_nat index) (Z.of_nat (lastIndex r1))); [|exact Hs].
  apply Forall_app. split; [exact Hs|]. repeat constructor; simpl; lia.
Qed.

Lemma while_exec_scanned (fuel : nat) :
  forall r text slices out,
    while_exec search fuel r text slices = Some out ->
    Forall scanned slices -> Forall scanned out.
Proof.
  induction fuel as [|fuel IH]; simpl; intros r text slices out H Hs.
  - discriminate.
  - destruct (loop_body search r text slices) as [[r' slices']|] eqn:Hb.
    + eapply IH; [exact H|]. eapply loop_body_scanned; eassumption.
    + injection H as <-. exact Hs.
Qed.

Lemma fold_reducer_None (fuel : nat) (m : string -> RegExp) (text : string)
  (words : list string) :
  fold_left (reducer search fuel m text) words None = None.
Proof. induction words; simpl; auto. Qed.

Lemma fold_reducer_scanned (fuel : nat) (m : string -> RegExp) (text : string)
  (words : list string) :
  forall slices out,
    fold_left (reducer search fuel m text) words (Some slices) = Some out ->
    Forall scanned slices -> Forall scanned out.
Proof.
  induction words as [|w r IH]; simpl; intros slices out H Hs.
  - injection H as <-. exact Hs.
  - destruct (while_exec search fuel (m w) text slices) as [slices'|] eqn:Hw.
    + eapply IH; [exact H|]. eapply while_exec_scanned; eassumption.
    + rewrite fold_reducer_None in H. discriminate.
Qed.

Lemma slicing_scanned (fuel : nat) (text : string) (words : list string)
  (options : option OptionsOrMatch) (out : list Slice) :
  slicing search fuel text words options = Some out ->
  Forall scanned out.
Proof.
  intro H. eapply fold_reducer_scanned; [exact H|constructor].
Qed.

(** More fuel does not change a result. *)
Lemma while_exec_more_fuel (fuel : nat) :
  forall r text slices out k,
    while_exec search fuel r text slices = Some out ->
    while_exec search (fuel + k) r text slices = Some out.
Proof.
  induction fuel as [|fuel IH]; simpl; intros r text slices out k H.
  - discriminate.
  - destruct (loop_body search r text slices) as [[r' slices']|].
    + apply IH, H.
    + exact H.
Qed.

Hypothesis search_respects_cursor : cursor_respecting search.

Lemma loop_body_progress (r r' : RegExp) (text : string)
  (slices slices' : list Slice) :
  tracks r = true ->
  loop_body search r text slices = Some (r', slices') ->
  (lastIndex r < lastIndex r')%nat
  /\ (lastIndex r <= String.length text)%nat
  /\ tracks r' = true.
Proof.
  intros Ht H. rewrite (loop_body_tracks _ _ _ Ht) in H.
  destruct (Nat.ltb_spec (String.length text) (lastIndex r)); [discriminate|].
  destruct (search (source r) (flags r) text (lastIndex r)) as [[i len]|] eqn:Hs;
    [|discriminate].
  apply search_respects_cursor in Hs. injection H as <- _.
  rewrite tracks_set_lastIndex. repeat split; try assumption.
  simpl. destruct len; simpl; lia.
Qed.

Lemma while_exec_terminates (fuel : nat) :
  forall r text slices,
    tracks r = true ->
    (S (String.length text + 1 - lastIndex r) <= fuel)%nat ->
    exists out, while_exec search fuel r text slices = Some out.
Proof.
  induction fuel as [|fuel IH]; simpl; intros r text slices Ht Hf.
  - lia.
  - destruct (loop_body search r text slices) as [[r' slices']|] eqn:Hb.
    + destruct (loop_body_progress _ _ _ _ _ Ht Hb) as (H1 & H2 & H3).
      apply IH; [exact H3|lia].
    + eauto.
Qed.

Lemma fold_reducer_terminates (fuel : nat) (m : string -> RegExp)
  (text : string) (words : list string) :
  (forall w, tracks (m w) = true) ->
  (String.length text + 2 <= fuel)%nat ->
  forall slices,
    exists out, fold_left (reducer search fuel m text) words (Some slices)
                = Some out.
Proof.
  intros Hm Hf. induction words as [|w r IH]; simpl; intro slices.
  - eauto.
  - destruct (while_exec_terminates fuel (m w) text slices (Hm w)) as [s' ->];
      [lia|]. apply IH.
Qed.

Lemma tracks_match_of_options (o : Options) (w : string) :
  tracks (match_of_options o w) = true.
Proof.
  unfold match_of_options, tracks, has_flag. simpl.
  destruct (truthy_bool (caseSensitive o)); reflexivity.
Qed.

Lemma slicing_terminates (fuel : nat) (text : string) (words : list string)
  (options : option OptionsOrMatch) :
  (forall w, tracks (match_of (or_default options) w) = true) ->
  (String.length text + 2 <= fuel)%nat ->
  exists out, slicing search fuel text words options = Some out.
Proof.
  intros Hm Hf. apply fold_reducer_terminates; assumption.
Qed.

Lemma slicing_default_terminates (fuel : nat) (text : string)
  (words : list string) :
  (String.length text + 2 <= fuel)%nat ->
  exists out, slicing search fuel text words None = Some out.
Proof.
  apply slicing_terminates. intro w. apply tracks_match_of_options.
Qed.

End Scanner.

(** C6.  With an engine that reports no occurrence in front of the
    cursor and expressions that keep a cursor, the loop of the scanner
    ends: a zero-width occurrence adds no slice and puts the cursor one
    past it, every turn moves the cursor forward, and one turn per
    position of the text and two more are enough for each word, whatever
    the text, the words and the matchers. *)
Theorem scanner_terminates (search : Engine) :
  cursor_respecting search ->
  (forall r text slices i,
     tracks r = true -> (lastIndex r <= String.length text)%nat ->
     search (source r) (flags r) text (lastIndex r) = Some (i, 0%nat) ->
     loop_body search r text slices = Some (set_lastIndex r (i + 1), slices)
     /\ (lastIndex r < i + 1)%nat)
  /\ (forall r text slices r' slices',
        tracks r = true ->
        loop_body search r text slices = Some (r', slices') ->
        (lastIndex r < lastIndex r')%nat /\ tracks r' = true)
  /\ (forall r text slices fuel,
        tracks r = true -> (String.length text + 2 <= fuel)%nat ->
        exists out, while_exec search fuel r text slices = Some out)
  /\ (forall text searchWords options fuel,
        (forall w, tracks (match_of (or_default options) w) = true) ->
        (String.length text + 2 <= fuel)%nat ->
        exists out, slicing search fuel text searchWords options = Some out)
  /\ (forall text searchWords o fuel,
        (String.length text + 2 <= fuel)%nat ->
        exists out,
          slicing search fuel text searchWords (Some (Config o)) = Some out).
Proof.
  intro Hc. split; [|split; [|split; [|split]]].
  - intros r text slices i Ht Hle Hs. rewrite (loop_body_tracks _ _ _ _ Ht).
    destruct (Nat.ltb_spec (String.length text) (lastIndex r)); [lia|].
    rewrite Hs. simpl. split; [reflexivity|].
    apply Hc in Hs. lia.
  - intros r text slices r' slices' Ht Hb.
    destruct (loop_body_progress search Hc _ _ _ _ _ Ht Hb) as (H1 & _ & H3).
    auto.
  - intros r text slices fuel Ht Hf.
    apply while_exec_terminates; [exact Hc|exact Ht|lia].
  - intros. apply slicing_terminates; assumption.
  - intros text words o fuel Hf. apply slicing_terminates; [exact Hc| |exact Hf].
    intro w. apply tracks_match_of_options.
Qed.

Lemma scanner_terminates_witness :
  loop_body RefEngine.search (mkRegExp "" "g" 2) "ab cd" [slice_of 0 1]
  = Some (mkRegExp "" "g" 3, [slice_of 0 1])
  /\ (exists out,
        slicing RefEngine.search 7 "ab cd" ["a"; "cd"]
          (Some (MatchFn (fun _ => new_RegExp "\b" "g"))) = Some out).
Proof.
  destruct (scanner_terminates RefEngine.search RefEngine_cursor_respecting)
    as (H1 & _ & _ & H4 & _).
  split.
  - apply (H1 (mkRegExp "" "g" 2) "ab cd" [slice_of 0 1] 2%nat).
    + reflexivity.
    + simpl. lia.
    + reflexivity.
  - apply H4.
    + intro w. reflexivity.
    + simpl. lia.
Defined.

(** C7.  No span of length zero comes out of the scanner, of the merger
    when none goes in, or of the gap filler; and the scanner does produce
    its output when the engine respects the cursor. *)
Theorem no_zero_length_spans :
  (forall search fuel text searchWords options out,
     slicing search fuel text searchWords options = Some out ->
     Forall non_empty out)
  /\ (forall search text searchWords,
        cursor_respecting search ->
        exists out,
          slicing search (String.length text + 2) text searchWords None
          = Some out
          /\ Forall non_empty out)
  /\ (forall slices,
        Forall non_empty slices -> Forall non_empty (mergeOverlap slices))
  /\ (forall slices textLength,
        Forall non_empty (fillSliceGaps slices textLength)).
Proof.
  assert (Hs : forall search fuel text searchWords options out,
             slicing search fuel text searchWords options = Some out ->
             Forall non_empty out).
  { intros search fuel text words options out H.
    apply slicing_scanned in H. eapply Forall_impl; [|exact H].
    unfold non_empty, scanned. simpl. tauto. }
  split; [exact Hs|]. split; [|split].
  - intros search text words Hc.
    destruct (slicing_default_terminates search Hc
                (String.length text + 2) text words (le_n _)) as [out Hout].
    exists out. split; [exact Hout|]. eapply Hs, Hout.
  - apply mergeOverlap_non_empty.
  - apply fillSliceGaps_non_empty.
Qed.

Lemma no_zero_length_spans_witness :
  Forall non_empty [slice_of 1 2; slice_of 3 4]
  /\ Forall non_empty (mergeOverlap [slice_of 0 5; slice_of 5 10; slice_of 12 13])
  /\ (exists out,
        slicing RefEngine.search (String.length "a b c" + 2) "a b c" [" "] None
        = Some out /\ Forall non_empty out).
Proof.
  destruct no_zero_length_spans as (H1 & H2 & H3 & _).
  split; [|split].
  - apply (H1 RefEngine.search 7%nat "a b c" [" "] None).
    vm_compute. reflexivity.
  - apply H3. repeat constructor.
  - apply H2. exact RefEngine_cursor_respecting.
Defined.

(* ================================================================== *)
(** * Putting the text together again *)

Section RoundTrip.

Lemma append_empty_r (s : string) : (s ++ "")%string = s.
Proof. induction s; simpl; congruence. Qed.

Lemma concat_cons (x : string) (l : list string) :
  String.concat "" (x :: l) = (x ++ String.concat "" l)%string.
Proof. destruct l; simpl; [rewrite append_empty_r|]; reflexivity. Qed.

Lemma substring_app (s : string) :
  forall n k j,
    (n + k <= String.length s)%nat ->
    (substring n k s ++ substring (n + k) j s)%string = substring n (k + j) s.
Proof.
  induction s as [|c r IH]; simpl; intros n k j H.
  - assert (n = 0%nat) by lia. assert (k = 0%nat) by lia. subst. reflexivity.
  - destruct n as [|n]; simpl.
    + destruct k as [|k]; simpl; [reflexivity|].
      f_equal. apply (IH 0%nat). lia.
    + apply IH. lia.
Qed.

Lemma substring_all (s : string) :
  forall k, (String.length s <= k)%nat -> substring 0 k s = s.
Proof.
  induction s as [|c r IH]; simpl; intros k H.
  - destruct k; reflexivity.
  - destruct k as [|k]; [lia|]. f_equal. apply IH. lia.
Qed.

Lemma slice_app (text : string) (a m b : Z) :
  0 <= a -> a <= m -> m <= b ->
  (JS.slice text a m ++ JS.slice text m b)%string = JS.slice text a b.
Proof.
  intros Ha Hm Hb. unfold JS.slice, JS.clamp, JS.length.
  destruct (Z.ltb_spec a 0), (Z.ltb_spec m 0), (Z.ltb_spec b 0); try lia.
  set (len := Z.of_nat (String.length text)).
  replace (Z.to_nat (Z.min b len - Z.min a len))
    with (Z.to_nat (Z.min m len - Z.min a len)
          + Z.to_nat (Z.min b len - Z.min m len))%nat by lia.
  rewrite <- substring_app by lia.
  do 2 f_equal. lia.
Qed.

Lemma slice_empty (text : string) (a : Z) : JS.slice text a a = "".
Proof.
  unfold JS.slice. rewrite Z.sub_diag. simpl.
  generalize (Z.to_nat (JS.clamp (JS.length text) a)).
  induction text as [|c r IH]; intros [|n]; simpl; auto.
Qed.

Lemma slice_all (text : string) (b : Z) :
  JS.length text <= b -> JS.slice text 0 b = text.
Proof.
  unfold JS.slice, JS.clamp, JS.length. intro H.
  destruct (Z.ltb_spec b 0); [lia|]. simpl.
  replace (Z.to_nat (Z.min 0 (Z.of_nat (String.length text)))) with 0%nat by lia.
  apply substring_all. lia.
Qed.

Lemma chain_reconstruct (text : string) (l : list Slice) :
  forall a b, 0 <= a -> chain a l b -> reconstruct text l = JS.slice text a b.
Proof.
  unfold reconstruct. induction l as [|s r IH]; simpl map; intros a b Ha H.
  - simpl in H. subst. rewrite slice_empty. reflexivity.
  - destruct H as (Hs & Hlt & Hr). rewrite concat_cons.
    rewrite (IH (end_ s) b) by (assumption || lia).
    rewrite Hs. apply slice_app; try lia. apply chain_le in Hr. exact Hr.
Qed.

Lemma separated_from_within (l : list Slice) :
  forall e, separated_from e l -> exists hi, within (e + 1) l hi.
Proof.
  induction l as [|s r IH]; simpl; intros e H.
  - exists (e + 1). lia.
  - destruct H as (H1 & H2 & H3). destruct (IH _ H3) as [hi Hhi].
    exists hi. repeat split; try lia.
    clear - Hhi. destruct r as [|t r']; simpl in *; [lia|].
    repeat split; try tauto. lia.
Qed.

Lemma length_zero_empty (text : string) : JS.length text = 0 -> text = "".
Proof. destruct text; [reflexivity|]. unfold JS.length. simpl. lia. Qed.

(** The pipeline after the scanner, on spans as the scanner makes them. *)
Lemma fill_merge_reconstruct (text : string) (slices : list Slice) :
  Forall scanned slices ->
  reconstruct text (fillSliceGaps (mergeOverlap slices) (JS.length text)) = text.
Proof.
  intro H. destruct (Z.eq_dec (JS.length text) 0) as [H0|H0].
  - rewrite H0. rewrite (length_zero_empty _ H0). reflexivity.
  - assert (Hsep : separated_from (-1) (mergeOverlap slices)).
    { apply mergeOverlap_separated. eapply Forall_impl; [|exact H].
      unfold well_formed, scanned. simpl. intros; lia. }
    destruct (separated_from_within _ _ Hsep) as [hi Hw].
    destruct (fill_chain _ _ hi H0 Hw) as (b & Hc & Hb & _).
    rewrite (chain_reconstruct text _ 0 b (Z.le_refl 0) Hc).
    apply slice_all, Hb.
Qed.

End RoundTrip.

(** C8.  For every text and every list of words, [sliceText] with the
    default options produces slices, and the parts of the text that they
    cut out, put one after the other in the order of the output, are the
    text. *)
Theorem sliceText_round_trip (search : Engine) (text : string)
  (searchWords : list string) :
  cursor_respecting search ->
  exists out,
    sliceText search (String.length text + 2) text searchWords None = Some out
    /\ reconstruct text out = text.
Proof.
  intro Hc. unfold sliceText.
  destruct (slicing_default_terminates search Hc
              (String.length text + 2) text searchWords (le_n _)) as [slices Hs].
  rewrite Hs. eexists. split; [reflexivity|].
  apply fill_merge_reconstruct. eapply slicing_scanned, Hs.
Qed.

Lemma sliceText_round_trip_witness :
  exists out,
    sliceText RefEngine.search 29 "Hello world, hello universe"
      ["Hello"; "hello"] None = Some out
    /\ reconstruct "Hello world, hello universe" out
       = "Hello world, hello universe".
Proof.
  exact (sliceText_round_trip RefEngine.search "Hello world, hello universe"
           ["Hello"; "hello"] RefEngine_cursor_respecting).
Defined.

(* ================================================================== *)
(** * More on the string helpers *)

Section HelpersMore.

Lemma backslash_special : is_special "\" = true.
Proof. reflexivity. Qed.

Lemma escapeRegex_inj (a : string) :
  forall b, escapeRegex a = escapeRegex b -> a = b.
Proof.
  induction a as [|c1 r1 IH]; intros [|c2 r2]; simpl.
  - reflexivity.
  - destruct (is_special c2); discriminate.
  - destruct (is_special c1); discriminate.
  - destruct (is_special c1) eqn:H1, (is_special c2) eqn:H2; intro H.
    + injection H as -> H. f_equal. apply IH, H.
    + injection H as <- _. rewrite backslash_special in H2. discriminate.
    + injection H as -> _. rewrite backslash_special in H1. discriminate.
    + injection H as -> H. f_equal. apply IH, H.
Qed.

Lemma escapeRegex_length (s : string) :
  String.length (escapeRegex s) = (String.length s + count_special s)%nat.
Proof.
  induction s as [|c r IH]; simpl; [reflexivity|].
  destruct (is_special c); simpl; rewrite IH; lia.
Qed.

Lemma escapeRegex_no_special (s : string) :
  count_special s = 0%nat -> escapeRegex s = s.
Proof.
  induction s as [|c r IH]; simpl; [reflexivity|].
  destruct (is_special c); simpl; intro H; [discriminate|].
  rewrite IH by exact H. reflexivity.
Qed.

Lemma trim_empty_only_white_space (s : string) :
  JS.trim s = "" -> only_white_space s = true.
Proof.
  unfold JS.trim. induction s as [|c r IH]; simpl; [reflexivity|].
  destruct (JS.is_white_space c) eqn:Hc; simpl.
  - exact IH.
  - rewrite Hc. simpl. discriminate.
Qed.

Lemma only_white_space_escapeRegex (s : string) :
  only_white_space (escapeRegex s) = only_white_space s.
Proof.
  induction s as [|c r IH]; simpl; [reflexivity|].
  destruct (is_special c) eqn:Hs; simpl.
  - destruct (JS.is_white_space c) eqn:Hw; [|reflexivity].
    rewrite (white_space_not_special c Hw) in Hs. discriminate.
  - rewrite IH. reflexivity.
Qed.

Lemma filter_all (A : Type) (f : A -> bool) (l : list A) :
  (forall x, In x l -> f x = true) -> filter f l = l.
Proof.
  induction l as [|x r IH]; simpl; intro H; [reflexivity|].
  rewrite (H x (or_introl eq_refl)), IH; auto.
Qed.

Lemma Array_from_Set_NoDup (words : list string) :
  NoDup (JS.Array_from_Set words).
Proof.
  induction words as [|w r IH]; simpl; constructor.
  - rewrite filter_In. intros [_ H]. rewrite String.eqb_refl in H. discriminate.
  - apply NoDup_filter, IH.
Qed.

Lemma Array_from_Set_id (l : list string) :
  NoDup l -> JS.Array_from_Set l = l.
Proof.
  induction 1 as [|w r Hw Hr IH]; simpl; [reflexivity|].
  rewrite IH. f_equal. apply filter_all. intros x Hx.
  destruct (String.eqb_spec x w); [subst; contradiction|reflexivity].
Qed.

Lemma search_terms_NoDup (words : list string) : NoDup (search_terms words).
Proof.
  unfold search_terms. rewrite map_id. apply NoDup_filter, Array_from_Set_NoDup.
Qed.

Lemma search_terms_idem (words : list string) :
  search_terms (search_terms words) = search_terms words.
Proof.
  unfold search_terms at 1. rewrite map_id.
  rewrite Array_from_Set_id by apply search_terms_NoDup.
  apply filter_all. intros x Hx. apply In_search_terms in Hx.
  unfold JS.truthy. rewrite (eqb_neq_false x "") by tauto. reflexivity.
Qed.

End HelpersMore.

(** X1.  [escapeRegex] is injective: two words with the same escaped form
    are the same word. *)
Theorem escapeRegex_injective (a b : string) :
  escapeRegex a = escapeRegex b -> a = b.
Proof. apply escapeRegex_inj. Qed.

Lemma escapeRegex_injective_witness : "a.b" = "a.b".
Proof. exact (escapeRegex_injective "a.b" "a.b" eq_refl). Defined.

(** X2.  [escapeRegex] adds one character for each special character of
    the word, works piece by piece on a concatenation, and returns the
    word itself exactly when the word has no special character. *)
Theorem escapeRegex_shape (s t : string) :
  String.length (escapeRegex s) = (String.length s + count_special s)%nat
  /\ escapeRegex (s ++ t) = (escapeRegex s ++ escapeRegex t)%string
  /\ (escapeRegex s = s <-> count_special s = 0%nat).
Proof.
  split; [apply escapeRegex_length|]. split.
  - induction s as [|c r IH]; simpl; [reflexivity|].
    destruct (is_special c); simpl; rewrite IH; reflexivity.
  - split; [|apply escapeRegex_no_special].
    intro H. pose proof (escapeRegex_length s) as Hl. rewrite H in Hl. lia.
Qed.

(** X3.  Escaping does not change whether a word trims to the empty
    string; so for every word that does not, the default configuration
    builds the expression of line 134: the escaped word between two [\b],
    with the flags [gi]. *)
Theorem default_matcher (word : string) :
  (JS.trim (escapeRegex word) = "" <-> JS.trim word = "")
  /\ (JS.trim word <> "" ->
      match_of_options default_options word
      = new_RegExp ("\b" ++ escapeRegex word ++ "\b") "gi").
Proof.
  assert (Hiff : JS.trim (escapeRegex word) = "" <-> JS.trim word = "").
  { split; intro H; apply trim_only_white_space;
      apply trim_empty_only_white_space in H.
    - rewrite <- only_white_space_escapeRegex. exact H.
    - rewrite only_white_space_escapeRegex. exact H. }
  split; [exact Hiff|]. intro H.
  unfold match_of_options, pattern. simpl.
  rewrite (eqb_neq_false (JS.trim (escapeRegex word)) "") by tauto.
  reflexivity.
Qed.

Lemma default_matcher_witness :
  match_of_options default_options "a.b" = new_RegExp "\ba\.b\b" "gi".
Proof.
  apply (proj2 (default_matcher "a.b")). vm_compute. discriminate.
Defined.

(** X4.  The words that [slicing] scans are without repetition and
    without the empty word, filtering them again changes nothing, and
    [slicing] gives the same result for the filtered list as for the
    list itself. *)
Theorem search_terms_unique (searchWords : list string) :
  NoDup (search_terms searchWords)
  /\ ~ In "" (search_terms searchWords)
  /\ search_terms (search_terms searchWords) = search_terms searchWords
  /\ (forall search fuel text options,
        slicing search fuel text (search_terms searchWords) options
        = slicing search fuel text searchWords options).
Proof.
  split; [apply search_terms_NoDup|]. split.
  - rewrite In_search_terms. tauto.
  - split; [apply search_terms_idem|].
    intros. unfold slicing. rewrite search_terms_idem. reflexivity.
Qed.

(* ================================================================== *)
(** * More on the scanner *)

(** The reference engine reports occurrences in the text. *)
Lemma match_here_le (ic : bool) (atoms : list RefEngine.atom) :
  forall prev s n,
    RefEngine.match_here ic atoms prev s = Some n -> (n <= List.length s)%nat.
Proof.
  induction atoms as [|a k IH]; intros prev s n H.
  - simpl in H. injection H as <-. lia.
  - destruct a; simpl in H.
    + destruct s as [|x s']; [discriminate|].
      destruct (RefEngine.same_char ic c x); [|discriminate].
      destruct (RefEngine.match_here ic k (Some x) s') as [m|] eqn:Hm;
        [|discriminate].
      injection H as <-. apply IH in Hm. simpl. lia.
    + destruct s as [|x s']; [discriminate|].
      destruct (RefEngine.is_word x); [|discriminate].
      destruct (RefEngine.match_here ic k (Some x) s') as [m|] eqn:Hm;
        [|discriminate].
      injection H as <-. apply IH in Hm. simpl. lia.
    + destruct s as [|x s']; [discriminate|].
      destruct (RefEngine.is_word x); [|discriminate].
      match type of H with
      | option_map S (?f _ _) = _ =>
          assert (Hmore : forall s prev n,
                     f prev s = Some n -> (n <= List.length s)%nat)
      end.
      { clear - IH. induction s as [|y s IHs]; intros prev n H.
        - apply IH in H. exact H.
        - simpl in H. destruct (RefEngine.is_word y).
          + match type of H with
            | match ?e with _ => _ end = _ => destruct e as [m|] eqn:Hm
            end.
            * injection H as <-. apply IHs in Hm. simpl. lia.
            * apply IH in H. exact H.
          + apply IH in H. exact H. }
      match type of H with
      | option_map S ?e = _ => destruct e as [m|] eqn:Hm; [|discriminate]
      end.
      injection H as <-. apply Hmore in Hm. simpl. lia.
    + destruct (xorb _ _); [|discriminate]. apply IH in H. exact H.
Qed.

Lemma find_from_in_text (ic : bool) (atoms : list RefEngine.atom)
  (s : list ascii) :
  forall prev pos i len,
    RefEngine.find_from ic atoms prev s pos = Some (i, len) ->
    (i + len <= pos + List.length s)%nat.
Proof.
  induction s as [|c r IH]; simpl; intros prev pos i len H.
  - destruct (RefEngine.match_here ic atoms prev []) eqn:Hm; [|discriminate].
    injection H as <- <-. apply match_here_le in Hm. simpl in Hm. lia.
  - destruct (RefEngine.match_here ic atoms prev (c :: r)) eqn:Hm.
    + injection H as <- <-. apply match_here_le in Hm. simpl in Hm. lia.
    + apply IH in H. lia.
Qed.

Lemma drop_to_length (from : nat) :
  forall prev s prev' s',
    RefEngine.drop_to from prev s = Some (prev', s') ->
    (from + List.length s' = List.length s)%nat.
Proof.
  induction from as [|n IH]; simpl; intros prev s prev' s' H.
  - injection H as _ <-. reflexivity.
  - destruct s as [|c r]; [discriminate|]. apply IH in H. simpl. lia.
Qed.

Lemma length_list_ascii (s : string) :
  List.length (list_ascii_of_string s) = String.length s.
Proof. induction s; simpl; congruence. Qed.

Lemma RefEngine_occurrence_in_text : occurrence_in_text RefEngine.search.
Proof.
  intros src fl text from i len. unfold RefEngine.search.
  destruct (RefEngine.drop_to from None (list_ascii_of_string text))
    as [[prev s]|] eqn:Hd; [|discriminate].
  intro H. apply find_from_in_text in H. apply drop_to_length in Hd.
  rewrite length_list_ascii in Hd. lia.
Qed.

Section ScannerMore.

Variable search : Engine.

Lemma loop_body_app (r : RegExp) (text : string) (slices : list Slice) :
  loop_body search r text slices
  = match loop_body search r text [] with
    | None => None
    | Some (r', d) => Some (r', slices ++ d)
    end.
Proof.
  unfold loop_body. destruct (exec search r text) as [r1 [index|]];
    [|reflexivity].
  destruct (Z.of_nat index <? Z.of_nat (lastIndex r1)); simpl;
    [reflexivity|rewrite app_nil_r; reflexivity].
Qed.

Lemma while_exec_app (fuel : nat) :
  forall r text slices,
    while_exec search fuel r text slices
    = option_map (app slices) (while_exec search fuel r text []).
Proof.
  induction fuel as [|fuel IH]; intros r text slices; simpl; [reflexivity|].
  rewrite (loop_body_app r text slices).
  destruct (loop_body search r text []) as [[r' d]|]; simpl.
  - rewrite (IH r' text (slices ++ d)), (IH r' text d).
    destruct (while_exec search fuel r' text []); simpl; [|reflexivity].
    rewrite app_assoc. reflexivity.
  - rewrite app_nil_r. reflexivity.
Qed.

Lemma fold_reducer_segments (fuel : nat) (m : string -> RegExp)
  (text : string) (words : list string) :
  forall acc out,
    fold_left (reducer search fuel m text) words (Some acc) = Some out <->
    exists segs,
      Forall2 (fun w seg => while_exec search fuel (m w) text [] = Some seg)
              words segs
      /\ out = acc ++ List.concat segs.
Proof.
  induction words as [|w r IH]; simpl; intros acc out.
  - split.
    + intro H. injection H as <-. exists []. split; [constructor|].
      simpl. rewrite app_nil_r. reflexivity.
    + intros (segs & Hf & ->). inversion Hf; subst. simpl.
      rewrite app_nil_r. reflexivity.
  - rewrite (while_exec_app fuel (m w) text acc).
    destruct (while_exec search fuel (m w) text []) as [seg|] eqn:Hw; simpl.
    + rewrite IH. split.
      * intros (segs & Hf & ->). exists (seg :: segs). split.
        -- constructor; assumption.
        -- simpl. rewrite app_assoc. reflexivity.
      * intros (segs & Hf & ->). inversion Hf as [|? seg' ? segs' Hs Hf']; subst.
        rewrite Hw in Hs. injection Hs as <-.
        exists segs'. split; [exact Hf'|]. simpl. rewrite app_assoc. reflexivity.
    + rewrite fold_reducer_None. split; [discriminate|].
      intros (segs & Hf & _). inversion Hf; subst. congruence.
Qed.

Lemma slicing_single (fuel : nat) (text : string) (w : string)
  (options : option OptionsOrMatch) :
  w <> "" ->
  slicing search fuel text [w] options
  = while_exec search fuel (match_of (or_default options) w) text [].
Proof.
  intro H. unfold slicing, search_terms. simpl. unfold JS.truthy.
  rewrite (eqb_neq_false _ _ H). reflexivity.
Qed.

(** ** An expression without a cursor *)

Lemma loop_body_no_tracks (r : RegExp) (text : string) (slices : list Slice) :
  tracks r = false ->
  loop_body search r text slices
  = match search (source r) (flags r) text 0%nat with
    | None => None
    | Some (i, _) =>
        Some (if Z.of_nat i =? Z.of_nat (lastIndex r)
              then set_lastIndex r (lastIndex r + 1) else r,
              if Z.of_nat i <? Z.of_nat (lastIndex r)
              then slices ++ [slice_of (Z.of_nat i) (Z.of_nat (lastIndex r))]
              else slices)
    end.
Proof.
  intro Ht. unfold loop_body, exec. rewrite Ht. simpl.
  destruct (search (source r) (flags r) text 0%nat) as [[i len]|]; reflexivity.
Qed.

Lemma loop_body_no_cursor (r r' : RegExp) (text : string)
  (slices slices' : list Slice) :
  tracks r = false ->
  loop_body search r text slices = Some (r', slices') ->
  tracks r' = false
  /\ exists p, loop_body search r' text slices' = Some p.
Proof.
  intros Ht H. rewrite (loop_body_no_tracks _ _ _ Ht) in H.
  destruct (search (source r) (flags r) text 0%nat) as [[i len]|] eqn:Hs;
    [|discriminate].
  injection H as <- _.
  assert (Ht' : tracks (if Z.of_nat i =? Z.of_nat (lastIndex r)
                        then set_lastIndex r (lastIndex r + 1) else r) = false)
    by (destruct (Z.of_nat i =? Z.of_nat (lastIndex r)); exact Ht).
  split; [exact Ht'|]. rewrite (loop_body_no_tracks _ _ _ Ht').
  destruct (Z.of_nat i =? Z.of_nat (lastIndex r)); simpl; rewrite Hs; eauto.
Qed.

Lemma while_exec_no_cursor (fuel : nat) :
  forall r text slices p,
    tracks r = false ->
    loop_body search r text slices = Some p ->
    while_exec search fuel r text slices = None.
Proof.
  induction fuel as [|fuel IH]; intros r text slices [r' slices'] Ht Hb; simpl.
  - reflexivity.
  - rewrite Hb.
    destruct (loop_body_no_cursor _ _ _ _ _ Ht Hb) as [Ht' [p' Hb']].
    eapply IH; eassumption.
Qed.

(** ** Slices in the text, in order *)

Hypothesis search_respects_cursor : cursor_respecting search.

Lemma within_lower (l : list Slice) (lo lo' hi : Z) :
  lo' <= lo -> within lo l hi -> within lo' l hi.
Proof. destruct l; simpl; intros; [lia|]. repeat split; try tauto. lia. Qed.

Lemma while_exec_ordered (fuel : nat) :
  forall r text out,
    tracks r = true ->
    while_exec search fuel r text [] = Some out ->
    exists hi, within (Z.of_nat (lastIndex r)) out hi.
Proof.
  induction fuel as [|fuel IH]; simpl; intros r text out Ht H; [discriminate|].
  rewrite (loop_body_tracks search _ _ _ Ht) in H.
  destruct (String.length text <? lastIndex r)%nat.
  { injection H as <-. exists (Z.of_nat (lastIndex r)). simpl. lia. }
  destruct (search (source r) (flags r) text (lastIndex r)) as [[i len]|] eqn:Hs.
  2:{ injection H as <-. exists (Z.of_nat (lastIndex r)). simpl. lia. }
  apply search_respects_cursor in Hs.
  rewrite while_exec_app in H.
  destruct (while_exec search fuel _ text []) as [d|] eqn:Hd; [|discriminate].
  apply IH in Hd; [|rewrite tracks_set_lastIndex; exact Ht].
  destruct Hd as [hi Hhi]. simpl in H, Hhi. injection H as <-. exists hi.
  destruct len as [|len]; simpl in *.
  - eapply within_lower; [|exact Hhi]. lia.
  - repeat split; try lia. eapply within_lower; [|exact Hhi]. lia.
Qed.

Hypothesis search_in_text : occurrence_in_text search.

Lemma while_exec_in_text (fuel : nat) :
  forall r text slices out,
    while_exec search fuel r text slices = Some out ->
    Forall (fun s => end_ s <= JS.length text) slices ->
    Forall (fun s => end_ s <= JS.length text) out.
Proof.
  induction fuel as [|fuel IH]; simpl; intros r text slices out H Hs;
    [discriminate|].
  destruct (loop_body search r text slices) as [[r' slices']|] eqn:Hb.
  2:{ injection H as <-. exact Hs. }
  destruct (tracks r) eqn:Ht.
  - apply (IH _ _ _ _ H). clear H.
    rewrite (loop_body_tracks search _ _ _ Ht) in Hb.
    destruct (String.length text <? lastIndex r)%nat; [discriminate|].
    destruct (search (source r) (flags r) text (lastIndex r)) as [[i len]|] eqn:Hq;
      [|discriminate].
    apply search_in_text in Hq. injection Hb as _ <-.
    destruct (0 <? len)%nat; [|exact Hs].
    apply Forall_app. split; [exact Hs|]. repeat constructor. simpl.
    unfold JS.length. lia.
  - destruct (loop_body_no_cursor _ _ _ _ _ Ht Hb) as [Ht' [p Hb']].
    rewrite (while_exec_no_cursor fuel _ _ _ _ Ht' Hb') in H. discriminate.
Qed.

Lemma slicing_in_text (fuel : nat) (text : string) (words : list string)
  (options : option OptionsOrMatch) (out : list Slice) :
  slicing search fuel text words options = Some out ->
  Forall (fun s => end_ s <= JS.length text) out.
Proof.
  unfold slicing. generalize (search_terms words) as ws.
  assert (Hg : forall ws acc,
    fold_left (reducer search fuel (match_of (or_default options)) text) ws
      (Some acc) = Some out ->
    Forall (fun s => end_ s <= JS.length text) acc ->
    Forall (fun s => end_ s <= JS.length text) out).
  { induction ws as [|w r IH]; simpl; intros acc H Ha.
    - injection H as <-. exact Ha.
    - destruct (while_exec search fuel _ text acc) as [acc'|] eqn:Hw.
      + eapply IH; [exact H|]. eapply while_exec_in_text; eassumption.
      + rewrite fold_reducer_None in H. discriminate. }
  intros ws H. eapply Hg; [exact H|constructor].
Qed.

End ScannerMore.

(** X5.  The result of [slicing] is the results for the single words,
    one after the other in the order of the filtered word list; it
    exists exactly when each of them does. *)
Theorem slicing_by_word (search : Engine) (fuel : nat) (text : string)
  (searchWords : list string) (options : option OptionsOrMatch)
  (out : list Slice) :
  slicing search fuel text searchWords options = Some out <->
  exists segs,
    Forall2 (fun w seg => slicing search fuel text [w] options = Some seg)
            (search_terms searchWords) segs
    /\ out = List.concat segs.
Proof.
  unfold slicing at 1. rewrite fold_reducer_segments. simpl.
  assert (Hne : Forall (fun w => w <> "") (search_terms searchWords)).
  { apply Forall_forall. intros w Hw. apply In_search_terms in Hw. tauto. }
  assert (Hiff : forall segs,
    Forall2 (fun w seg =>
               while_exec search fuel (match_of (or_default options) w) text []
               = Some seg) (search_terms searchWords) segs
    <-> Forall2 (fun w seg => slicing search fuel text [w] options = Some seg)
                (search_terms searchWords) segs).
  { induction Hne as [|w r Hw Hr IH]; intro segs.
    - split; intro H; inversion H; constructor.
    - split; intro H; inversion H; subst; constructor;
        try (apply IH; assumption).
      + rewrite slicing_single; assumption.
      + rewrite <- slicing_single; assumption. }
  split; intros (segs & Hf & ->); exists segs; split; try reflexivity;
    apply Hiff; exact Hf.
Qed.

(** X6.  With an engine that respects the cursor, the slices that one
    expression with a cursor contributes are in ascending order and none
    reaches into the next; for a configuration object the first of them
    starts at 0 or later. *)
Theorem scan_ordered (search : Engine) :
  cursor_respecting search ->
  (forall fuel r text out,
     tracks r = true ->
     while_exec search fuel r text [] = Some out ->
     exists hi, within (Z.of_nat (lastIndex r)) out hi)
  /\ (forall fuel text word o out,
        slicing search fuel text [word] (Some (Config o)) = Some out ->
        exists hi, within 0 out hi).
Proof.
  intro Hc. split.
  - intros fuel r text out. apply while_exec_ordered. exact Hc.
  - intros fuel text word o out H.
    destruct (String.eqb_spec word "") as [->|Hne].
    + injection H as <-. exists 0. simpl. lia.
    + rewrite slicing_single in H by exact Hne.
      apply (while_exec_ordered search Hc) in H;
        [exact H|apply tracks_match_of_options].
Qed.

Lemma scan_ordered_witness :
  exists hi, within 0 [slice_of 0 5; slice_of 13 18] hi.
Proof.
  apply (proj2 (scan_ordered RefEngine.search RefEngine_cursor_respecting)
           30%nat "Hello world, hello universe" "hello" default_options).
  vm_compute. reflexivity.
Defined.

(** X7.  With an engine whose occurrences lie in the text, every slice
    that [slicing] returns lies in the text and is not empty:
    [0 <= start < end <= text.length], for every matcher. *)
Theorem slicing_in_bounds (search : Engine) :
  occurrence_in_text search ->
  forall fuel text searchWords options out,
    slicing search fuel text searchWords options = Some out ->
    Forall (fun s => 0 <= start s /\ start s < end_ s
                     /\ end_ s <= JS.length text) out.
Proof.
  intros Ho fuel text words options out H.
  pose proof (slicing_scanned search _ _ _ _ _ H) as H1.
  pose proof (slicing_in_text search Ho _ _ _ _ _ H) as H2.
  rewrite Forall_forall in *. intros s Hs.
  destruct (H1 s Hs). specialize (H2 s Hs). auto.
Qed.

Lemma slicing_in_bounds_witness :
  Forall (fun s => 0 <= start s /\ start s < end_ s
                   /\ end_ s <= JS.length "prefix_word suffix_word")
         [slice_of 0 11; slice_of 12 23].
Proof.
  apply (slicing_in_bounds RefEngine.search RefEngine_occurrence_in_text
           30%nat "prefix_word suffix_word" ["word"]
           (Some (Config (mkOptions None (Some BEnd) None)))).
  vm_compute. reflexivity.
Defined.

(** X8.  A custom matcher whose expression keeps no cursor (neither
    global nor sticky) makes the loop run for ever as soon as the word
    occurs in the text: no number of turns is enough.  When the word does
    not occur the loop ends at once and adds nothing. *)
Theorem no_cursor_no_end (search : Engine) (text word : string)
  (f : string -> RegExp) :
  word <> "" -> tracks (f word) = false ->
  (forall i len,
     search (source (f word)) (flags (f word)) text 0%nat = Some (i, len) ->
     forall fuel, slicing search fuel text [word] (Some (MatchFn f)) = None)
  /\ (search (source (f word)) (flags (f word)) text 0%nat = None ->
      forall fuel, slicing search (S fuel) text [word] (Some (MatchFn f))
                   = Some []).
Proof.
  intros Hne Ht. split.
  - intros i len Hs fuel. rewrite slicing_single by exact Hne. simpl.
    pose proof (loop_body_no_tracks search (f word) text [] Ht) as Hb.
    rewrite Hs in Hb. eapply while_exec_no_cursor; eassumption.
  - intros Hs fuel. rewrite slicing_single by exact Hne. simpl.
    rewrite (loop_body_no_tracks search (f word) text [] Ht), Hs. reflexivity.
Qed.

Lemma no_cursor_no_end_witness :
  slicing RefEngine.search 1000 "ab cd" ["cd"]
    (Some (MatchFn (fun w => new_RegExp w "i"))) = None
  /\ slicing RefEngine.search 1 "ab cd" ["x"]
       (Some (MatchFn (fun w => new_RegExp w "i"))) = Some [].
Proof.
  split.
  - apply (proj1 (no_cursor_no_end RefEngine.search "ab cd" "cd"
                    (fun w => new_RegExp w "i")
                    ltac:(discriminate) eq_refl) 3%nat 2%nat).
    reflexivity.
  - apply (proj2 (no_cursor_no_end RefEngine.search "ab cd" "x"
                    (fun w => new_RegExp w "i")
                    ltac:(discriminate) eq_refl)).
    reflexivity.
Defined.

(* ================================================================== *)
(** * More on the merger *)

Section MergerMore.

Lemma covers_cons (a : Slice) (l : list Slice) (x : Z) :
  covers (a :: l) x <-> (start a <= x < end_ a) \/ covers l x.
Proof.
  unfold covers. simpl. split.
  - intros (s & [<-|Hs] & Hx); [left; exact Hx|right; eauto].
  - intros [Hx|(s & Hs & Hx)]; eauto.
Qed.

Lemma covers_perm (l1 l2 : list Slice) (x : Z) :
  Permutation l1 l2 -> covers l1 x <-> covers l2 x.
Proof.
  intro Hp. unfold covers. split; intros (s & Hs & Hx); exists s; split; auto.
  - eapply Permutation_in; eassumption.
  - eapply Permutation_in; [apply Permutation_sym|]; eassumption.
Qed.

Lemma coalesce_from_covers (rest : list Slice) (x : Z) :
  forall current,
    Forall (by_start current) rest -> StronglySorted by_start rest ->
    covers (coalesce_from current rest) x <-> covers (current :: rest) x.
Proof.
  induction rest as [|n r IH]; intros c Hc Hs.
  - reflexivity.
  - inversion Hc as [|? ? Hn Hc']; subst.
    inversion Hs as [|? ? Hs' Hnr]; subst. unfold by_start in Hn. simpl.
    destruct (Z.leb_spec (start n) (end_ c)) as [Hle|Hgt].
    + rewrite IH; [|exact Hc'|exact Hs'].
      rewrite !covers_cons. simpl. split.
      * intros [H|H]; [|tauto].
        destruct (Z.lt_ge_cases x (end_ c)); [left; lia|right; left; lia].
      * intros [H|[H|H]]; [left; lia|left; lia|tauto].
    + rewrite covers_cons, IH, !covers_cons; [tauto|exact Hnr|exact Hs'].
Qed.

Lemma coalesce_from_length (rest : list Slice) :
  forall current,
    (List.length (coalesce_from current rest) <= S (List.length rest))%nat.
Proof.
  induction rest as [|n r IH]; simpl; intro c; [lia|].
  destruct (start n <=? end_ c); simpl.
  - specialize (IH (slice_of (start c) (Z.max (end_ c) (end_ n)))). lia.
  - specialize (IH n). lia.
Qed.

Lemma separated_from_gapped (l : list Slice) :
  forall e, separated_from e l -> gapped l.
Proof.
  induction l as [|s r IH]; intros e H i a b Ha Hb.
  - destruct i; discriminate.
  - destruct H as (_ & _ & Hr). destruct i as [|i]; simpl in Ha, Hb.
    + injection Ha as <-. destruct r as [|t r']; [discriminate|].
      injection Hb as <-. simpl in Hr. tauto.
    + exact (IH _ Hr i a b Ha Hb).
Qed.

Lemma gapped_tail (s : Slice) (r : list Slice) : gapped (s :: r) -> gapped r.
Proof. intros H i a b Ha Hb. exact (H (S i) a b Ha Hb). Qed.

Lemma gapped_separated (l : list Slice) :
  forall e,
    Forall well_formed l -> gapped l ->
    (forall s r, l = s :: r -> e < start s) ->
    separated_from e l.
Proof.
  induction l as [|s r IH]; simpl; intros e Hwf Hg He; [exact I|].
  inversion Hwf; subst. repeat split.
  - eapply He. reflexivity.
  - assumption.
  - apply IH; [assumption|eapply gapped_tail; eassumption|].
    intros t r' ->. exact (Hg 0%nat s t eq_refl eq_refl).
Qed.

Lemma separated_from_well_formed (l : list Slice) :
  forall e, separated_from e l -> Forall well_formed l.
Proof.
  induction l as [|s r IH]; simpl; intros e H; constructor.
  - unfold well_formed. tauto.
  - apply (IH (end_ s)). tauto.
Qed.

End MergerMore.

Lemma mergeOverlap_covers_iff (slices : list Slice) (x : Z) :
  covers (mergeOverlap slices) x <-> covers slices x.
Proof.
  rewrite mergeOverlap_coalesce.
  rewrite (covers_perm slices (toSorted slices) x (toSorted_perm slices)).
  pose proof (toSorted_sorted slices) as Hs.
  unfold coalesce. destruct (toSorted slices) as [|c r]; [reflexivity|].
  inversion Hs; subst. apply coalesce_from_covers; assumption.
Qed.

(** X9.  [mergeOverlap] keeps the covered positions: a position lies in
    a span of the result exactly when it lies in a span of the input, for
    every input. *)
Theorem mergeOverlap_covers (slices : list Slice) (x : Z) :
  covers (mergeOverlap slices) x <-> covers slices x.
Proof. apply mergeOverlap_covers_iff. Qed.

(** X10.  For well-formed spans the result of [mergeOverlap] is sorted
    by [start], its spans are well-formed, and each one ends before the
    next begins: no two of them overlap or touch. *)
Theorem mergeOverlap_disjoint (slices : list Slice) :
  Forall well_formed slices ->
  StronglySorted by_start (mergeOverlap slices)
  /\ Forall well_formed (mergeOverlap slices)
  /\ gapped (mergeOverlap slices).
Proof.
  intro Hwf.
  assert (Hsep : separated_from (below slices) (mergeOverlap slices)).
  { apply mergeOverlap_separated. pose proof (below_lt slices) as Hb.
    rewrite Forall_forall in *. intros s Hs. split; auto. }
  split; [apply (separated_from_sorted _ _ Hsep)|].
  split; [apply (separated_from_well_formed _ _ Hsep)|].
  apply (separated_from_gapped _ _ Hsep).
Qed.

Lemma mergeOverlap_disjoint_witness :
  gapped (mergeOverlap [slice_of 10 15; slice_of 3 8; slice_of 0 5]).
Proof.
  apply (mergeOverlap_disjoint [slice_of 10 15; slice_of 3 8; slice_of 0 5]).
  repeat constructor; unfold well_formed; simpl; lia.
Defined.

(** X11.  [mergeOverlap] never returns more spans than it is given, and
    it returns a list of well-formed spans unchanged when each of them
    ends before the next begins. *)
Theorem mergeOverlap_fixed (slices : list Slice) :
  (List.length (mergeOverlap slices) <= List.length slices)%nat
  /\ (Forall well_formed slices -> gapped slices ->
      mergeOverlap slices = slices).
Proof.
  split.
  - rewrite mergeOverlap_coalesce.
    rewrite (Permutation_length (toSorted_perm slices)).
    unfold coalesce. destruct (toSorted slices) as [|c r]; simpl; [lia|].
    apply coalesce_from_length.
  - intros Hwf Hg. apply mergeOverlap_id with (e := below slices).
    apply gapped_separated; try assumption.
    intros s r ->. pose proof (below_lt (s :: r)) as Hb.
    apply Forall_inv in Hb. exact Hb.
Qed.

Lemma mergeOverlap_fixed_witness :
  mergeOverlap [slice_of 0 5; slice_of 6 10] = [slice_of 0 5; slice_of 6 10].
Proof.
  apply (proj2 (mergeOverlap_fixed [slice_of 0 5; slice_of 6 10])).
  - repeat constructor; unfold well_formed; simpl; lia.
  - intros [|[|i]] a b Ha Hb; simpl in *; try discriminate.
    injection Ha as <-. injection Hb as <-. simpl. lia.
Defined.

(* ================================================================== *)
(** * More on the gap filler *)

Section FillerMore.

Lemma filter_push_false (acc : list Slice) (s e : Z) :
  filter is_matched (push acc s e false) = filter is_matched acc.
Proof.
  rewrite push_spec. destruct (s <? e); [|reflexivity].
  rewrite filter_app. simpl. apply app_nil_r.
Qed.

Lemma filter_push_true (acc : list Slice) (x : Slice) :
  filter is_matched (push acc (start x) (end_ x) true)
  = filter is_matched acc ++ map (flagged true) (filter is_non_empty [x]).
Proof.
  rewrite push_spec. simpl. unfold is_non_empty.
  destruct (start x <? end_ x); simpl.
  - rewrite filter_app. reflexivity.
  - rewrite app_nil_r. reflexivity.
Qed.

Lemma fill_loop_matched (slices : list Slice) :
  forall acc lo,
    filter is_matched (fst (fold_left fill_step slices (acc, lo)))
    = filter is_matched acc ++ map (flagged true) (filter is_non_empty slices).
Proof.
  induction slices as [|x r IH]; simpl; intros acc lo.
  - rewrite app_nil_r. reflexivity.
  - rewrite IH, filter_push_true, filter_push_false, <- app_assoc.
    f_equal. simpl. destruct (is_non_empty x); reflexivity.
Qed.

Lemma push_flagged (acc : list Slice) (s e : Z) (m : bool) :
  Forall (fun x => matched x <> None) acc ->
  Forall (fun x => matched x <> None) (push acc s e m).
Proof.
  intro H. rewrite push_spec. destruct (s <? e); [|exact H].
  apply Forall_app. split; [exact H|]. repeat constructor. discriminate.
Qed.

Lemma fill_loop_flagged (slices : list Slice) :
  forall acc lo,
    Forall (fun x => matched x <> None) acc ->
    Forall (fun x => matched x <> None)
           (fst (fold_left fill_step slices (acc, lo))).
Proof.
  induction slices as [|x r IH]; simpl; intros acc lo H; [exact H|].
  apply IH. apply push_flagged, push_flagged, H.
Qed.

(** ** Alternation *)

Lemma alt_after_snoc (acc : list Slice) (x : Slice) :
  forall m,
    alt_after m (acc ++ [x])
    <-> alt_after m acc /\ last_flag m acc <> matched x.
Proof.
  unfold last_flag. induction acc as [|a r IH]; simpl; intro m.
  - tauto.
  - rewrite IH. tauto.
Qed.

Lemma last_flag_snoc (acc : list Slice) (x : Slice) (m : option bool) :
  last_flag m (acc ++ [x]) = matched x.
Proof. unfold last_flag. rewrite fold_left_app. reflexivity. Qed.

Lemma push_alt (acc : list Slice) (s e : Z) (m : bool) :
  alt_after None acc -> last_flag None acc <> Some m ->
  alt_after None (push acc s e m).
Proof.
  intros Ha Hl. rewrite push_spec. destruct (s <? e); [|exact Ha].
  apply alt_after_snoc. split; [exact Ha|exact Hl].
Qed.

Lemma fill_loop_alt (slices : list Slice) :
  forall acc lo e,
    separated_from e slices -> Forall non_empty slices ->
    acc = [] \/ e = lo ->
    alt_after None acc -> last_flag None acc <> Some false ->
    alt_after None (fst (fold_left fill_step slices (acc, lo)))
    /\ last_flag None (fst (fold_left fill_step slices (acc, lo)))
       <> Some false.
Proof.
  induction slices as [|x r IH]; simpl; intros acc lo e Hsep Hne Hacc Ha Hl.
  - auto.
  - destruct Hsep as (He & _ & Hr). inversion Hne as [|? ? Hx Hne']; subst.
    unfold non_empty in Hx.
    assert (Hstep :
      alt_after None (push (push acc lo (start x) false) (start x) (end_ x) true)
      /\ last_flag None
           (push (push acc lo (start x) false) (start x) (end_ x) true)
         = Some true).
    { rewrite (push_spec _ (start x) (end_ x) true).
      destruct (Z.ltb_spec (start x) (end_ x)); [|lia].
      rewrite last_flag_snoc. split; [|reflexivity].
      apply alt_after_snoc. simpl. rewrite push_spec.
      destruct (Z.ltb_spec lo (start x)).
      - rewrite last_flag_snoc. split; [|discriminate].
        apply alt_after_snoc. auto.
      - destruct Hacc as [-> | ->]; [|lia]. simpl. split; [exact I|discriminate]. }
    destruct Hstep as [H1 H2].
    apply (IH _ _ (end_ x)); try assumption.
    + right. reflexivity.
    + rewrite H2. discriminate.
Qed.

Lemma alt_after_alternating (l : list Slice) :
  forall m, alt_after m l -> alternating l.
Proof.
  induction l as [|s r IH]; intros m H i a b Ha Hb.
  - destruct i; discriminate.
  - destruct H as [_ Hr]. destruct i as [|i]; simpl in Ha, Hb.
    + injection Ha as <-. destruct r as [|t r']; [discriminate|].
      injection Hb as <-. simpl in Hr. tauto.
    + exact (IH _ Hr i a b Ha Hb).
Qed.

Lemma fillSliceGaps_alt (slices : list Slice) (textLength e : Z) :
  separated_from e slices -> Forall non_empty slices ->
  alternating (fillSliceGaps slices textLength).
Proof.
  intros Hsep Hne. apply (alt_after_alternating _ None).
  unfold fillSliceGaps. destruct (textLength =? 0); [exact I|].
  assert (Hgen :
    alt_after None (push (fst (fold_left fill_step slices ([], 0)))
                         (snd (fold_left fill_step slices ([], 0)))
                         textLength false)).
  { destruct (fill_loop_alt slices [] 0 e Hsep Hne) as [H1 H2];
      [left; reflexivity|exact I|discriminate|].
    apply push_alt; assumption. }
  destruct slices as [|s r]; [exact Hgen|].
  destruct (fold_left fill_step (s :: r) ([], 0)) as [acc lo]. exact Hgen.
Qed.

End FillerMore.

Lemma fillSliceGaps_flags (slices : list Slice) (textLength : Z) :
  Forall (fun s => matched s <> None) (fillSliceGaps slices textLength)
  /\ (textLength <> 0 ->
      filter is_matched (fillSliceGaps slices textLength)
      = map (flagged true) (filter is_non_empty slices)).
Proof.
  unfold fillSliceGaps. destruct (Z.eqb_spec textLength 0) as [H0|H0].
  - split; [constructor|contradiction].
  - pose proof (fill_loop_matched slices [] 0) as Hm.
    pose proof (fill_loop_flagged slices [] 0 (Forall_nil _)) as Hf.
    destruct slices as [|s r].
    + split; [apply push_flagged; constructor|].
      intros _. rewrite filter_push_false. reflexivity.
    + destruct (fold_left fill_step (s :: r) ([], 0)) as [acc lo].
      split; [apply push_flagged; exact Hf|].
      intros _. rewrite filter_push_false. exact Hm.
Qed.

(** X12.  Every span of the result of [fillSliceGaps] carries a flag,
    and, for a length other than 0, the spans flagged [true] are the
    non-empty spans of the input, in their order, for every input. *)
Theorem fillSliceGaps_matched (slices : list Slice) (textLength : Z) :
  Forall (fun s => matched s <> None) (fillSliceGaps slices textLength)
  /\ (textLength <> 0 ->
      filter is_matched (fillSliceGaps slices textLength)
      = map (flagged true) (filter is_non_empty slices)).
Proof. apply fillSliceGaps_flags. Qed.

Lemma fillSliceGaps_matched_witness :
  filter is_matched (fillSliceGaps [slice_of 5 10; slice_of 12 12; slice_of 15 20] 25)
  = [mkSlice 5 10 (Some true); mkSlice 15 20 (Some true)].
Proof.
  apply (proj2 (fillSliceGaps_matched
                  [slice_of 5 10; slice_of 12 12; slice_of 15 20] 25)).
  discriminate.
Defined.

(** X13.  When the spans given to [fillSliceGaps] are not empty and each
    ends before the next begins, as the spans of [mergeOverlap] do, no
    two neighbours of the result have the same [matched] value. *)
Theorem fillSliceGaps_alternating (slices : list Slice) (textLength : Z) :
  Forall non_empty slices -> gapped slices ->
  alternating (fillSliceGaps slices textLength).
Proof.
  intros Hne Hg. apply fillSliceGaps_alt with (e := below slices).
  - apply gapped_separated.
    + eapply Forall_impl; [|exact Hne]. unfold non_empty, well_formed.
      intros; lia.
    + exact Hg.
    + intros s r ->. pose proof (below_lt (s :: r)) as Hb.
      apply Forall_inv in Hb. exact Hb.
  - exact Hne.
Qed.

Lemma fillSliceGaps_alternating_witness :
  alternating (fillSliceGaps [slice_of 0 5; slice_of 10 15] 20).
Proof.
  apply (fillSliceGaps_alternating [slice_of 0 5; slice_of 10 15] 20).
  - repeat constructor.
  - intros [|[|i]] a b Ha Hb; simpl in *; try discriminate.
    injection Ha as <-. injection Hb as <-. simpl. lia.
Defined.

(* ================================================================== *)
(** * More on the facade *)

Section FacadeMore.

Lemma chain_bounds (l : list Slice) :
  forall a b, chain a l b ->
              Forall (fun s => a <= start s /\ end_ s <= b) l.
Proof.
  induction l as [|s r IH]; simpl; intros a b H; constructor.
  - destruct H as (Hs & Hlt & Hr). apply chain_le in Hr. lia.
  - destruct H as (Hs & Hlt & Hr). eapply Forall_impl; [|apply (IH _ _ Hr)].
    simpl. intros; lia.
Qed.

Lemma separated_bounded_within (l : list Slice) :
  forall lo hi,
    lo <= hi -> separated_from (lo - 1) l ->
    Forall (fun s => end_ s <= hi) l -> within lo l hi.
Proof.
  induction l as [|s r IH]; simpl; intros lo hi Hle Hsep Hb; [exact Hle|].
  destruct Hsep as (H1 & H2 & H3). inversion Hb; subst.
  repeat split; try lia. apply IH; try assumption.
  eapply separated_from_weaken; [|exact H3]. lia.
Qed.

Lemma covers_flagged_non_empty (l : list Slice) (x : Z) :
  covers (map (flagged true) (filter is_non_empty l)) x <-> covers l x.
Proof.
  unfold covers. split.
  - intros (s & Hs & Hx). apply in_map_iff in Hs.
    destruct Hs as (t & <- & Ht). apply filter_In in Ht.
    exists t. simpl in Hx. tauto.
  - intros (s & Hs & Hx). exists (flagged true s). split; [|exact Hx].
    apply in_map, filter_In. split; [exact Hs|].
    unfold is_non_empty. apply Z.ltb_lt. lia.
Qed.

Lemma JS_length_nonneg (text : string) : 0 <= JS.length text.
Proof. unfold JS.length. lia. Qed.

(** The pipeline after the scanner, on slices that lie in the text. *)
Lemma fill_merge_partition (slices : list Slice) (L : Z) :
  0 <= L ->
  Forall (fun s => 0 <= start s /\ start s < end_ s /\ end_ s <= L) slices ->
  chain 0 (fillSliceGaps (mergeOverlap slices) L) L
  /\ alternating (fillSliceGaps (mergeOverlap slices) L)
  /\ (forall x, covers (filter is_matched (fillSliceGaps (mergeOverlap slices) L)) x
                <-> covers slices x).
Proof.
  intros HL H.
  assert (Hsep : separated_from (-1) (mergeOverlap slices)).
  { apply mergeOverlap_separated. eapply Forall_impl; [|exact H].
    unfold well_formed. simpl. intros; lia. }
  assert (Hne : Forall non_empty (mergeOverlap slices)).
  { apply mergeOverlap_non_empty. eapply Forall_impl; [|exact H].
    unfold non_empty. simpl. intros; lia. }
  assert (Hb : Forall (fun s => end_ s <= L) (mergeOverlap slices)).
  { apply mergeOverlap_Forall; [simpl; intros; lia|].
    eapply Forall_impl; [|exact H]. simpl. intros; lia. }
  split; [|split].
  - destruct (Z.eq_dec L 0) as [->|H0]; [reflexivity|].
    assert (Hw : within 0 (mergeOverlap slices) L)
      by (apply separated_bounded_within; assumption).
    destruct (fill_chain _ _ L H0 Hw) as (b & Hc & H1 & H2).
    assert (b = L) by lia. subst b. exact Hc.
  - apply fillSliceGaps_alt with (e := -1); assumption.
  - intro x. destruct (Z.eq_dec L 0) as [->|H0].
    + simpl. split; intros (s & Hs & Hx); [destruct Hs|].
      rewrite Forall_forall in H. specialize (H s Hs). lia.
    + rewrite (proj2 (fillSliceGaps_flags _ L) H0).
      rewrite covers_flagged_non_empty. apply mergeOverlap_covers_iff.
Qed.

Lemma search_terms_nil (searchWords : list string) :
  (forall w, In w searchWords -> w = "") -> search_terms searchWords = [].
Proof.
  intro H. destruct (search_terms searchWords) as [|w r] eqn:E; [reflexivity|].
  assert (Hw : In w (search_terms searchWords)) by (rewrite E; left; reflexivity).
  apply In_search_terms in Hw. destruct Hw as [Hw Hne].
  destruct (Hne (H w Hw)).
Qed.

End FacadeMore.

(** X14.  With an engine whose occurrences lie in the text, a result of
    [sliceText] is a partition of the text: its spans are not empty, the
    first starts at 0, each ends where the next starts, the last ends at
    the length of the text, the lengths add up to it, and neighbours
    differ in their [matched] value. *)
Theorem sliceText_partition (search : Engine) :
  occurrence_in_text search ->
  forall fuel text searchWords options out,
    sliceText search fuel text searchWords options = Some out ->
    chain 0 out (JS.length text)
    /\ total_length out = JS.length text
    /\ Forall (fun s => 0 <= start s /\ end_ s <= JS.length text) out
    /\ alternating out.
Proof.
  intros Ho fuel text words options out H. unfold sliceText in H.
  destruct (slicing search fuel text words options) as [slices|] eqn:Hs;
    [|discriminate].
  injection H as <-.
  pose proof (slicing_scanned search _ _ _ _ _ Hs) as H1.
  pose proof (slicing_in_text search Ho _ _ _ _ _ Hs) as H2.
  destruct (fill_merge_partition slices (JS.length text)
              (JS_length_nonneg text)) as (Hc & Ha & _).
  { rewrite Forall_forall in *. intros s Hin.
    destruct (H1 s Hin). specialize (H2 s Hin). auto. }
  split; [exact Hc|]. split; [|split; [|exact Ha]].
  - rewrite (chain_total_length _ _ _ Hc). lia.
  - apply (chain_bounds _ _ _ Hc).
Qed.

Lemma sliceText_partition_witness :
  chain 0 [mkSlice 0 5 (Some true); mkSlice 5 13 (Some false);
           mkSlice 13 18 (Some true); mkSlice 18 27 (Some false)]
        (JS.length "Hello world, hello universe").
Proof.
  apply (sliceText_partition RefEngine.search RefEngine_occurrence_in_text
           30%nat "Hello world, hello universe" ["Hello"; "hello"] None).
  vm_compute. reflexivity.
Defined.

(** X15.  With an engine whose occurrences lie in the text, the spans
    that [sliceText] flags [true] cover exactly the positions that the
    slices of [slicing] cover: a position is marked when, and only when,
    it lies in an occurrence of a word. *)
Theorem sliceText_marks_occurrences (search : Engine) :
  occurrence_in_text search ->
  forall fuel text searchWords options slices,
    slicing search fuel text searchWords options = Some slices ->
    exists out,
      sliceText search fuel text searchWords options = Some out
      /\ forall x, covers (filter is_matched out) x <-> covers slices x.
Proof.
  intros Ho fuel text words options slices Hs. unfold sliceText. rewrite Hs.
  eexists. split; [reflexivity|].
  pose proof (slicing_scanned search _ _ _ _ _ Hs) as H1.
  pose proof (slicing_in_text search Ho _ _ _ _ _ Hs) as H2.
  apply (fill_merge_partition slices (JS.length text) (JS_length_nonneg text)).
  rewrite Forall_forall in *. intros s Hin.
  destruct (H1 s Hin). specialize (H2 s Hin). auto.
Qed.

Lemma sliceText_marks_occurrences_witness :
  exists out,
    sliceText RefEngine.search 30 "test testing tested" ["test"]
      (Some (Config (mkOptions None (Some BStart) None))) = Some out
    /\ forall x, covers (filter is_matched out) x
                 <-> covers [slice_of 5 12; slice_of 13 19] x.
Proof.
  apply (sliceText_marks_occurrences RefEngine.search
           RefEngine_occurrence_in_text 30%nat "test testing tested" ["test"]
           (Some (Config (mkOptions None (Some BStart) None)))).
  vm_compute. reflexivity.
Defined.

(** X16.  When no word is left after the filter (no words, or only empty
    ones), [slicing] returns no slice and [sliceText] the single unmatched
    span of the whole text, or nothing for the empty text; no turn of the
    loop is needed. *)
Theorem sliceText_no_words (search : Engine) (fuel : nat) (text : string)
  (searchWords : list string) (options : option OptionsOrMatch) :
  (forall w, In w searchWords -> w = "") ->
  slicing search fuel text searchWords options = Some []
  /\ sliceText search fuel text searchWords options
     = Some (if JS.length text =? 0 then []
             else [mkSlice 0 (JS.length text) (Some false)]).
Proof.
  intro H.
  assert (Hs : slicing search fuel text searchWords options = Some [])
    by (unfold slicing; rewrite (search_terms_nil _ H); reflexivity).
  split; [exact Hs|]. unfold sliceText. rewrite Hs. f_equal.
  unfold fillSliceGaps. simpl.
  destruct (Z.eqb_spec (JS.length text) 0); [reflexivity|].
  rewrite push_spec. pose proof (JS_length_nonneg text).
  destruct (Z.ltb_spec 0 (JS.length text)); [reflexivity|lia].
Qed.

Lemma sliceText_no_words_witness :
  sliceText RefEngine.search 0 "Hello world" [""; ""] None
  = Some [mkSlice 0 11 (Some false)].
Proof.
  apply (proj2 (sliceText_no_words RefEngine.search 0 "Hello world" [""; ""] None
                  ltac:(simpl; intuition))).
Defined.


